(** * InfiniPlace protocol: coordinate, palette, handshake and delta rules

    A shallow embedding of [packages/shared/src/protocol.ts] (compiled to
    [dist/protocol.js]) and the properties the protocol description states
    about it.

    Conventions of the embedding.
    - World, tile and offset coordinates are JavaScript numbers holding
      integers; they are modelled as [Z].  On integer-valued doubles the
      operations used by the coordinate functions (division by the power of
      two 64, [Math.floor], [%], adding 64, multiplying by 64) are exact, so
      [Z] arithmetic is what the code computes.  JavaScript [%] takes the sign
      of the dividend: it is [Z.rem].  [Math.floor (a / b)] is floor division:
      [Z.div].  The one addition that can leave the integers a double holds,
      the [+ 32] of [toCenteredPixelCoord], is rounded by [roundToDouble].
    - Numbers that are only compared ([===], [>=], [<]), tested with
      [Number.isInteger] or used as an array index are modelled by the type
      [number] below, which keeps non-integers, NaN and the infinities.
    - Strings are sequences of ASCII characters ([string]); colour strings
      are CSS hex colours.  [toUpperCase] maps [a]..[z] to [A]..[Z]. *)

From Stdlib Require Import ZArith QArith Qround Ascii String List Lia.
From Stdlib Require Import DecimalString DecimalZ.
From stdpp Require Import gmap strings list sorting.

Local Open Scope Z_scope.

(** ** Core constants *)

Definition TILE_SIZE : Z := 64.
Definition PROTOCOL_VERSION : Z := 1.

(** ** Coordinate system *)

Record PixelCoord := { x : Z; y : Z }.
Record TileCoord := { tx : Z; ty : Z }.
Record TileOffset := { ox : Z; oy : Z }.

(** [Math.floor(x / TILE_SIZE)] on each axis. *)
Definition toTileCoord (x y : Z) : TileCoord :=
  {| tx := x / TILE_SIZE; ty := y / TILE_SIZE |}.

(** [((v % TILE_SIZE) + TILE_SIZE) % TILE_SIZE] on each axis, [%] being the
    truncating remainder of JavaScript. *)
Definition toTileOffset (x y : Z) : TileOffset :=
  let ox := Z.rem (Z.rem x TILE_SIZE + TILE_SIZE) TILE_SIZE in
  let oy := Z.rem (Z.rem y TILE_SIZE + TILE_SIZE) TILE_SIZE in
  {| ox := ox; oy := oy |}.

Definition toPixelCoord (tx ty : Z) : PixelCoord :=
  {| x := tx * TILE_SIZE; y := ty * TILE_SIZE |}.

(** The double nearest to an integer, ties going to the even significand:
    what a JavaScript addition returns when the exact sum is this integer
    (short of the overflow to Infinity, from 2^1024).  Integers below 2^53
    in absolute value are doubles themselves; from there on a double keeps 53
    significant bits. *)
Definition roundToDouble (z : Z) : Z :=
  let a := Z.abs z in
  if a <? 2 ^ 53 then z
  else
    let u := 2 ^ (Z.log2 a - 52) in
    let q := a / u in
    let r := a mod u in
    let m := if 2 * r <? u then q
             else if u <? 2 * r then q + 1
             else if Z.even q then q else q + 1 in
    Z.sgn z * (m * u).

(** [tx * TILE_SIZE + TILE_SIZE / 2] on each axis.  The product by 64 and the
    quotient 64 / 2 are exact; the addition of 32 rounds for tiles so far out
    that the sum needs more than 53 bits. *)
Definition toCenteredPixelCoord (tx ty : Z) : PixelCoord :=
  {| x := roundToDouble (tx * TILE_SIZE + TILE_SIZE / 2);
     y := roundToDouble (ty * TILE_SIZE + TILE_SIZE / 2) |}.

(** Componentwise sum of a tile origin and an offset inside the tile. *)
Definition addOffset (p : PixelCoord) (o : TileOffset) : PixelCoord :=
  {| x := x p + ox o; y := y p + oy o |}.

(** Number to string on an integer: the decimal digits, a minus sign in
    front of a negative one, no padding.  (JavaScript prints this way below
    1e21 in absolute value and in exponent notation from there on; the model
    prints every integer in decimal.) *)
Definition numberToString (n : Z) : string :=
  NilZero.string_of_int (Z.to_int n).

(** [`${tx}:${ty}`]. *)
Definition tileKey (tx ty : Z) : string :=
  numberToString tx +:+ ":" +:+ numberToString ty.

(** ** JavaScript numbers that are compared or tested, not computed with *)

Inductive number : Type :=
| Num (q : Q)                 (* a finite value *)
| NaN
| Infinity (negative : bool).

Definition ofZ (z : Z) : number := Num (inject_Z z).

(** [n] is the integer [z]. *)
Definition isInt (n : number) (z : Z) : Prop :=
  match n with
  | Num q => Qeq q (inject_Z z)
  | _ => False
  end.

(** [Number.isInteger]. *)
Definition Number_isInteger (n : number) : bool :=
  match n with
  | Num q => Qeq_bool q (inject_Z (Qfloor q))
  | _ => false
  end.

(** [a === b] on numbers: NaN equals nothing. *)
Definition strictEq (a b : number) : bool :=
  match a, b with
  | Num p, Num q => Qeq_bool p q
  | Infinity s, Infinity t => Bool.eqb s t
  | _, _ => false
  end.

(** [a < b] on numbers: false as soon as one side is NaN. *)
Definition lessThan (a b : number) : bool :=
  match a, b with
  | Num p, Num q => negb (Qle_bool q p)
  | Num _, Infinity neg => negb neg
  | Infinity neg, Num _ => neg
  | Infinity s, Infinity t => s && negb t
  | _, _ => false
  end.

(** [a >= b] on numbers: false as soon as one side is NaN. *)
Definition greaterEq (a b : number) : bool :=
  match a, b with
  | Num p, Num q => Qle_bool q p
  | Num _, Infinity neg => neg
  | Infinity neg, Num _ => negb neg
  | Infinity s, Infinity t => negb s || t
  | _, _ => false
  end.

(** [arr[n]]: the element at an integer index inside the array, [undefined]
    (here [None]) for every other number. *)
Definition arrayGet {A : Type} (arr : list A) (n : number) : option A :=
  match n with
  | Num q =>
      if Number_isInteger n && (0 <=? Qfloor q)
      then arr !! Z.to_nat (Qfloor q)
      else None
  | _ => None
  end.

(** [arr.findIndex(pred)]: the first index whose element satisfies [pred],
    [-1] when there is none. *)
Fixpoint findIndexFrom {A : Type} (pred : A -> bool) (arr : list A) (i : Z) : Z :=
  match arr with
  | [] => -1
  | a :: rest => if pred a then i else findIndexFrom pred rest (i + 1)
  end.

Definition findIndex {A : Type} (pred : A -> bool) (arr : list A) : Z :=
  findIndexFrom pred arr 0.

(** [arr.forEach((a, idx) => ...)] threading the state the callback mutates. *)
Fixpoint forEachFrom {A S : Type} (f : S -> A -> Z -> S) (arr : list A) (i : Z) (s : S) : S :=
  match arr with
  | [] => s
  | a :: rest => forEachFrom f rest (i + 1) (f s a i)
  end.

(** ** Strings *)

Definition upperChar (c : ascii) : ascii :=
  let n := N_of_ascii c in
  if ((97 <=? n) && (n <=? 122))%N then ascii_of_N (n - 32) else c.

Fixpoint toUpperCase (s : string) : string :=
  match s with
  | EmptyString => EmptyString
  | String c rest => String (upperChar c) (toUpperCase rest)
  end.

(** ** Palettes *)

Module Palette.
Record t := { id : string; name : string; version : Z; colors : list string }.
End Palette.

Record PaletteSet := { palettes : list Palette.t; defaultPaletteId : string }.

Definition CLASSIC_PALETTE : Palette.t :=
  {| Palette.id := "classic";
     Palette.name := "Classic";
     Palette.version := 3;
     Palette.colors :=
       [ "#FFFFFFFF"; "#FFAAFFFF"; "#FF55FFFF"; "#FF00FFFF";
         "#FFFF00FF"; "#FFAA00FF"; "#FF5500FF"; "#FF0000FF";
         "#00FFFFFF"; "#00AAFFFF"; "#0055FFFF"; "#0000FFFF";
         "#00FF00FF"; "#00AA00FF"; "#005500FF"; "#000000FF" ]%string |}.

Definition EARTH_PALETTE : Palette.t :=
  {| Palette.id := "earth";
     Palette.name := "Earth Tones";
     Palette.version := 1;
     Palette.colors :=
       [ "#F3E5D0FF"; "#E9D5B3FF"; "#DFC49AFF"; "#D4B183FF";
         "#C9A069FF"; "#B78A56FF"; "#A67845FF"; "#946838FF";
         "#81572DFF"; "#6D4824FF"; "#5A3B1CFF"; "#4A2E17FF";
         "#3B2312FF"; "#2D1A0EFF"; "#1F120AFF"; "#120A05FF" ]%string |}.

Definition SHADES_PALETTE : Palette.t :=
  {| Palette.id := "shades";
     Palette.name := "Shades";
     Palette.version := 1;
     Palette.colors :=
       [ "#FFFFFFFF"; "#F5F5F5FF"; "#EBEBEBFF"; "#E0E0E0FF";
         "#D6D6D6FF"; "#CCCCCCFF"; "#C2C2C2FF"; "#B8B8B8FF";
         "#ADADADFF"; "#A3A3A3FF"; "#999999FF"; "#8F8F8FFF";
         "#858585FF"; "#7A7A7AFF"; "#707070FF"; "#000000FF" ]%string |}.

Definition PALETTE_SET : PaletteSet :=
  {| palettes := [CLASSIC_PALETTE; EARTH_PALETTE; SHADES_PALETTE];
     defaultPaletteId := Palette.id CLASSIC_PALETTE |}.

Definition DEFAULT_PALETTE : Palette.t := CLASSIC_PALETTE.

(** [PALETTE_SET.palettes.find(palette => palette.id === id)]. *)
Definition getPaletteById (id : string) : option Palette.t :=
  List.find (fun palette => String.eqb (Palette.id palette) id) (palettes PALETTE_SET).

(** The object built by [forEach((pal, idx) => { map[pal.id] = idx })]. *)
(** [map[pal.id] = idx] on an object literal.  The key [__proto__] is the
    accessor inherited from [Object.prototype]: assigning a number to it
    records nothing.  Every other key becomes (or overwrites) an own
    property of the object. *)
Definition recordIndex (map : gmap string number) (pal : Palette.t) (idx : Z) :
  gmap string number :=
  if String.eqb (Palette.id pal) "__proto__" then map
  else <[Palette.id pal := ofZ idx]> map.

Definition indexById (pals : list Palette.t) : gmap string number :=
  forEachFrom recordIndex pals 0 ∅.

Definition PALETTE_INDEX_BY_ID : gmap string number :=
  indexById (palettes PALETTE_SET).

(** [Number.isInteger] on the result of a property read.  [None] is
    [undefined]; it also stands for the members an object literal inherits
    from [Object.prototype], which are functions and objects, never numbers. *)
Definition isIntegerValue (v : option number) : bool :=
  match v with
  | Some n => Number_isInteger n
  | None => false
  end.

Definition paletteIdToOrdinal (id : string) : option number :=
  let idx := PALETTE_INDEX_BY_ID !! id in
  if isIntegerValue idx then idx else PALETTE_INDEX_BY_ID !! Palette.id DEFAULT_PALETTE.

Definition ordinalToPaletteId (ordinal : number) : string :=
  match arrayGet (palettes PALETTE_SET) ordinal with
  | Some pal => Palette.id pal
  | None => Palette.id DEFAULT_PALETTE
  end.

(** The local [norm] of [findColorIndex]. *)
Definition norm (hex : string) : string :=
  if (String.length hex =? 7)%nat then toUpperCase hex +:+ "FF" else toUpperCase hex.

(** The [palette] argument defaults to [DEFAULT_PALETTE] in the source; the
    callers below pass it. *)
Definition findColorIndex (color : string) (palette : Palette.t) : Z :=
  let target := norm color in
  findIndex (fun c => String.eqb (norm c) target) (Palette.colors palette).

(** The body of the initializer of [DEFAULT_BASELINE_COLOR_INDEX], the
    default palette it reads being the argument. *)
Definition baselineColorIndex (defaultPalette : Palette.t) : Z :=
  let idx := findColorIndex "#FFFFFF" defaultPalette in
  if idx >=? 0 then idx else 0.

Definition DEFAULT_BASELINE_COLOR_INDEX : Z := baselineColorIndex DEFAULT_PALETTE.

Definition DEFAULT_BASELINE_PALETTE_ID : string := Palette.id DEFAULT_PALETTE.

Definition DEFAULT_BASELINE_PALETTE_ORDINAL : option number :=
  paletteIdToOrdinal DEFAULT_BASELINE_PALETTE_ID.

Definition isValidColorIndex (idx : number) (palette : Palette.t) : bool :=
  Number_isInteger idx
  && greaterEq idx (ofZ 0)
  && lessThan idx (ofZ (Z.of_nat (length (Palette.colors palette)))).

(** ** Handshake *)

Record HandshakeInfo :=
  { protocolVersion : number; paletteVersion : number; tileSize : number }.

Definition isCompatible (server : HandshakeInfo) : bool :=
  strictEq (protocolVersion server) (ofZ PROTOCOL_VERSION)
  && strictEq (tileSize server) (ofZ TILE_SIZE).

(** ** Tile deltas *)

(** The wire shapes [PixelChange] and [TileDelta] of the declarations. *)
Module PixelChange.
Record t := { ox : Z; oy : Z; color : Z; paletteId : string }.
End PixelChange.

Module TileDelta.
Record t := { tx : Z; ty : Z; seq : Z; changes : list PixelChange.t }.
End TileDelta.

(** Modelled from the spec: the per-pixel state of one tile, the colour index
    and palette id last written at each offset.  The package declares the
    delta shapes only; the code that applies deltas lives in its consumers. *)
Abbreviation TileGrid := (gmap (Z * Z) (Z * string)).

(** Modelled from the spec: applying one [PixelChange], the atomic unit of a
    batch, overwrites the pixel it addresses. *)
Definition applyChange (g : TileGrid) (c : PixelChange.t) : TileGrid :=
  <[(PixelChange.ox c, PixelChange.oy c) := (PixelChange.color c, PixelChange.paletteId c)]> g.

(** Modelled from the spec: applying a batch applies its changes in the order
    of the batch. *)
Definition applyDelta (g : TileGrid) (d : TileDelta.t) : TileGrid :=
  fold_left applyChange (TileDelta.changes d) g.

(** Modelled from the spec: applying batches one after the other, in the
    order of the list. *)
Definition applyInOrder (g : TileGrid) (ds : list TileDelta.t) : TileGrid :=
  fold_left applyDelta ds g.

(** Modelled from the spec: the order of batches by [seq]. *)
Definition seqLe (a b : TileDelta.t) : Prop := TileDelta.seq a <= TileDelta.seq b.

(** The order by [seq] is decidable, so the sort computes. *)
#[global] Instance seqLe_dec (a b : TileDelta.t) : Decision (seqLe a b) :=
  Z_le_dec (TileDelta.seq a) (TileDelta.seq b).

(** Modelled from the spec: reordering batches to ascending [seq]. *)
Definition sortBySeq (ds : list TileDelta.t) : list TileDelta.t :=
  merge_sort seqLe ds.

(** Modelled from the spec: what a client holds for one tile, the tile's
    coordinates, the [seq] it applied last and the pixels. *)
Record ClientTile :=
  { tileTx : Z; tileTy : Z; lastApplied : Z; grid : TileGrid }.

(** Modelled from the spec: a batch is addressed to the tile of [c]. *)
Definition addressedTo (c : ClientTile) (d : TileDelta.t) : bool :=
  (TileDelta.tx d =? tileTx c) && (TileDelta.ty d =? tileTy c).

(** Modelled from the spec: a batch with [seq <= lastApplied] is a duplicate
    or a late redelivery. *)
Definition isStale (c : ClientTile) (d : TileDelta.t) : bool :=
  TileDelta.seq d <=? lastApplied c.

(** Modelled from the spec: the batches of an arrival the client keeps, those
    for its tile that are not stale. *)
Definition keep (c : ClientTile) (arrived : list TileDelta.t) : list TileDelta.t :=
  List.filter (fun d => addressedTo c d && negb (isStale c d)) arrived.

(** Modelled from the spec: the batches of an arrival for the tile of [c]
    that the client discards as stale. *)
Definition discarded (c : ClientTile) (arrived : list TileDelta.t) : list TileDelta.t :=
  List.filter (fun d => addressedTo c d && isStale c d) arrived.

(** Modelled from the spec: a client that discards the stale batches of what
    arrived, reorders the others to ascending [seq] and applies them. *)
Definition receiveBatches (c : ClientTile) (arrived : list TileDelta.t) : ClientTile :=
  let ordered := sortBySeq (keep c arrived) in
  {| tileTx := tileTx c;
     tileTy := tileTy c;
     lastApplied := fold_left (fun _ d => TileDelta.seq d) ordered (lastApplied c);
     grid := applyInOrder (grid c) ordered |}.

(** The example of delta convergence: batches 5, 6 and 7 of tile (0, 0),
    a client that applied 4 last, and one that already holds batch 5. *)
Definition paint (ox oy color : Z) : PixelChange.t :=
  {| PixelChange.ox := ox; PixelChange.oy := oy;
     PixelChange.color := color; PixelChange.paletteId := "classic" |}.

Definition delta5 : TileDelta.t :=
  {| TileDelta.tx := 0; TileDelta.ty := 0; TileDelta.seq := 5;
     TileDelta.changes := [paint 0 0 1; paint 1 1 2] |}.

Definition delta6 : TileDelta.t :=
  {| TileDelta.tx := 0; TileDelta.ty := 0; TileDelta.seq := 6;
     TileDelta.changes := [paint 0 0 3] |}.

Definition delta7 : TileDelta.t :=
  {| TileDelta.tx := 0; TileDelta.ty := 0; TileDelta.seq := 7;
     TileDelta.changes := [paint 1 1 4; paint 2 2 5] |}.

Definition clientAt4 : ClientTile :=
  {| tileTx := 0; tileTy := 0; lastApplied := 4; grid := ∅ |}.

Definition clientAt5 : ClientTile :=
  {| tileTx := 0; tileTy := 0; lastApplied := 5; grid := applyDelta ∅ delta5 |}.

(** An earlier batch of the same tile, painting the pixel batch 5 repaints,
    and a client that applied batches 4 and 5 in order. *)
Definition delta4 : TileDelta.t :=
  {| TileDelta.tx := 0; TileDelta.ty := 0; TileDelta.seq := 4;
     TileDelta.changes := [paint 0 0 9] |}.

Definition clientHolding5 : ClientTile :=
  {| tileTx := 0; tileTy := 0; lastApplied := 5;
     grid := applyInOrder ∅ [delta4; delta5] |}.

(** A palette called [__proto__], to exercise the index on that key. *)
Definition protoPalette : Palette.t :=
  {| Palette.id := "__proto__"; Palette.name := "Proto";
     Palette.version := 1; Palette.colors := ["#000000FF"%string] |}.

(** No character of the string is a colon. *)
Fixpoint colonFree (s : string) : Prop :=
  match s with
  | EmptyString => True
  | String c rest => c <> ":"%char /\ colonFree rest
  end.

(** ** Proof automation *)

(** Case analysis on membership in an explicit list: [tac] closes the goal
    for each element in turn. *)
Ltac each_member H tac :=
  repeat (apply elem_of_cons in H as [-> | H]; [tac|]); inversion H.

(** Decides a closed decidable proposition by evaluation. *)
Ltac decide_by_eval := apply (bool_decide_unpack _); vm_compute; reflexivity.

(** ** Coordinate system: proofs *)

(** One axis of [toTileOffset] is the Euclidean remainder. *)
Lemma offset_axis_mod (v : Z) :
  Z.rem (Z.rem v TILE_SIZE + TILE_SIZE) TILE_SIZE = v mod TILE_SIZE.
Proof.
  unfold TILE_SIZE.
  pose proof (Z.rem_bound_abs v 64 ltac:(lia)) as Hb.
  pose proof (Z.quot_rem' v 64) as Hq.
  rewrite Z.rem_mod_nonneg by lia.
  replace (Z.rem v 64 + 64) with (Z.rem v 64 + 1 * 64) by lia.
  rewrite Z.mod_add by lia.
  rewrite Hq at 2.
  rewrite Z.add_comm, Z.mul_comm, Z.mod_add by lia.
  reflexivity.
Qed.

Lemma tile_axis_roundtrip (v : Z) :
  v / TILE_SIZE * TILE_SIZE + Z.rem (Z.rem v TILE_SIZE + TILE_SIZE) TILE_SIZE = v.
Proof.
  rewrite offset_axis_mod. unfold TILE_SIZE.
  pose proof (Z.div_mod v 64 ltac:(lia)). lia.
Qed.

(** C1. For all integers, the origin of the tile of a pixel plus the offset
    of the pixel inside the tile is the pixel again: [tx*64 + ox = x] and
    [ty*64 + oy = y], that is, the componentwise sum of
    [toPixelCoord (toTileCoord x y)] and [toTileOffset x y] is [(x, y)]. *)
Theorem tile_roundtrip (px py : Z) :
  let t := toTileCoord px py in
  let o := toTileOffset px py in
  tx t * 64 + ox o = px
  /\ ty t * 64 + oy o = py
  /\ addOffset (toPixelCoord (tx t) (ty t)) o = {| x := px; y := py |}.
Proof.
  cbn zeta. unfold addOffset, toPixelCoord, toTileCoord, toTileOffset. cbn [tx ty ox oy x y].
  pose proof (tile_axis_roundtrip px) as Hx.
  pose proof (tile_axis_roundtrip py) as Hy.
  change 64 with TILE_SIZE.
  repeat split; try assumption.
  now rewrite Hx, Hy.
Qed.

(** C5. For all integers, negative ones included, both components of
    [toTileOffset] lie in [0, 64); they are the Euclidean remainder, computed
    as [((v % 64) + 64) % 64]; and [toTileOffset(-1, -1) = {ox: 63, oy: 63}]. *)
Theorem tile_offset_range (px py : Z) :
  let o := toTileOffset px py in
  (0 <= ox o < 64 /\ 0 <= oy o < 64)
  /\ (ox o = Z.rem (Z.rem px 64 + 64) 64 /\ oy o = Z.rem (Z.rem py 64 + 64) 64)
  /\ (ox o = px mod 64 /\ oy o = py mod 64)
  /\ toTileOffset (-1) (-1) = {| ox := 63; oy := 63 |}.
Proof.
  cbn zeta. unfold toTileOffset. cbn [ox oy].
  rewrite !offset_axis_mod. unfold TILE_SIZE.
  pose proof (Z.mod_pos_bound px 64 ltac:(lia)).
  pose proof (Z.mod_pos_bound py 64 ltac:(lia)).
  repeat split; try lia.
Qed.

(** ** Numbers: proofs *)

Lemma isInt_ofZ (z : Z) : isInt (ofZ z) z.
Proof. simpl. reflexivity. Qed.

Lemma isInt_unique (n : number) (a b : Z) : isInt n a -> isInt n b -> a = b.
Proof.
  destruct n as [q| |neg]; simpl; try tauto.
  intros Ha Hb. apply inject_Z_injective. now rewrite <- Ha, <- Hb.
Qed.

Lemma Number_isInteger_iff (n : number) :
  Number_isInteger n = true <-> exists z, isInt n z.
Proof.
  destruct n as [q| |neg]; simpl.
  - rewrite Qeq_bool_iff. split.
    + intros H. now exists (Qfloor q).
    + intros [z Hz]. rewrite Hz at 2. rewrite Qfloor_Z. exact Hz.
  - split; [discriminate | intros [z []]].
  - split; [discriminate | intros [z []]].
Qed.

Lemma strictEq_ofZ (n : number) (z : Z) : strictEq n (ofZ z) = true <-> isInt n z.
Proof.
  destruct n as [q| |neg]; simpl.
  - apply Qeq_bool_iff.
  - split; [discriminate | tauto].
  - split; [discriminate | tauto].
Qed.

Lemma greaterEq_ofZ (n : number) (z a : Z) :
  isInt n z -> (greaterEq n (ofZ a) = true <-> a <= z).
Proof.
  destruct n as [q| |neg]; simpl; try tauto.
  intros Hz. rewrite Qle_bool_iff, Hz, <- Zle_Qle. reflexivity.
Qed.

Lemma lessThan_ofZ (n : number) (z b : Z) :
  isInt n z -> (lessThan n (ofZ b) = true <-> z < b).
Proof.
  destruct n as [q| |neg]; simpl; try tauto.
  intros Hz. rewrite negb_true_iff, <- not_true_iff_false, Qle_bool_iff, Hz, <- Zle_Qle.
  lia.
Qed.

(** C8. [isValidColorIndex idx p] is true exactly when [idx] is an integer
    with [0 <= idx < p.colors.length]; it is false at [-1] and at [1.5] for
    every palette, and true at [0] for [CLASSIC_PALETTE]. *)
Theorem isValidColorIndex_iff :
  (forall (idx : number) (p : Palette.t),
      isValidColorIndex idx p = true
      <-> exists z : Z, isInt idx z /\ 0 <= z < Z.of_nat (length (Palette.colors p)))
  /\ (forall p : Palette.t, isValidColorIndex (ofZ (-1)) p = false)
  /\ (forall p : Palette.t, isValidColorIndex (Num (3 # 2)) p = false)
  /\ isValidColorIndex (ofZ 0) CLASSIC_PALETTE = true.
Proof.
  split; [|repeat split].
  intros idx p. unfold isValidColorIndex. rewrite !andb_true_iff, Number_isInteger_iff.
  split.
  - intros [[[z Hz] Hge] Hlt]. exists z.
    rewrite (greaterEq_ofZ _ z) in Hge by assumption.
    rewrite (lessThan_ofZ _ z) in Hlt by assumption.
    split; [assumption | lia].
  - intros [z [Hz Hr]]. repeat split.
    + now exists z.
    + apply (greaterEq_ofZ _ z); [assumption | lia].
    + apply (lessThan_ofZ _ z); [assumption | lia].
Qed.

(** C4. [isCompatible server] is true exactly when [server.protocolVersion]
    is [PROTOCOL_VERSION] (1) and [server.tileSize] is [TILE_SIZE] (64);
    [server.paletteVersion] plays no part; the handshake
    [{protocolVersion:1, paletteVersion:3, tileSize:64}] is accepted and
    [{protocolVersion:2, paletteVersion:3, tileSize:64}] is rejected. *)
Theorem isCompatible_iff :
  (forall server : HandshakeInfo,
      isCompatible server = true
      <-> isInt (protocolVersion server) PROTOCOL_VERSION
          /\ isInt (tileSize server) TILE_SIZE)
  /\ PROTOCOL_VERSION = 1 /\ TILE_SIZE = 64
  /\ (forall pv ts v v' : number,
         isCompatible {| protocolVersion := pv; paletteVersion := v; tileSize := ts |}
         = isCompatible {| protocolVersion := pv; paletteVersion := v'; tileSize := ts |})
  /\ isCompatible {| protocolVersion := ofZ 1; paletteVersion := ofZ 3; tileSize := ofZ 64 |} = true
  /\ isCompatible {| protocolVersion := ofZ 2; paletteVersion := ofZ 3; tileSize := ofZ 64 |} = false.
Proof.
  split; [intros server; split | repeat split].
  - intros H. unfold isCompatible in H. apply andb_true_iff in H as [H1 H2].
    split; now apply strictEq_ofZ.
  - intros [H1 H2]. unfold isCompatible.
    apply andb_true_iff. split; now apply strictEq_ofZ.
Qed.

(** ** Tile keys: proofs *)

Lemma colonFree_uint (d : Decimal.uint) : colonFree (NilEmpty.string_of_uint d).
Proof. induction d; simpl; auto; split; auto; discriminate. Qed.

Lemma colonFree_numberToString (n : Z) : colonFree (numberToString n).
Proof.
  unfold numberToString.
  destruct (Z.to_int n) as [d|d]; simpl.
  - destruct d; simpl; repeat split; try discriminate; apply colonFree_uint.
  - split; [discriminate|].
    destruct d; simpl; repeat split; try discriminate; apply colonFree_uint.
Qed.

Lemma to_int_not_nil (n : Z) : Z.to_int n <> Decimal.Pos Decimal.Nil /\ Z.to_int n <> Decimal.Neg Decimal.Nil.
Proof.
  destruct n as [|p|p]; simpl; split; try discriminate.
  - intros [= H]. unfold Pos.to_uint in H.
    pose proof (DecimalPos.Unsigned.to_uint_nonnil p) as Hn.
    apply Hn. unfold Pos.to_uint. exact H.
  - intros [= H].
    pose proof (DecimalPos.Unsigned.to_uint_nonnil p) as Hn.
    apply Hn. exact H.
Qed.

Lemma numberToString_inj (a b : Z) : numberToString a = numberToString b -> a = b.
Proof.
  unfold numberToString. intros H.
  apply DecimalZ.to_int_inj.
  destruct (to_int_not_nil a) as [Ha1 Ha2], (to_int_not_nil b) as [Hb1 Hb2].
  pose proof (NilZero.isi _ Ha1 Ha2) as Ia.
  pose proof (NilZero.isi _ Hb1 Hb2) as Ib.
  rewrite H in Ia. congruence.
Qed.

Lemma append_empty (s : string) : "" +:+ s = s.
Proof. reflexivity. Qed.

Lemma append_String (c : ascii) (a s : string) : String c a +:+ s = String c (a +:+ s).
Proof. reflexivity. Qed.

(** A colon-free prefix up to the first colon determines both halves. *)
Lemma split_at_colon (a a' b b' : string) :
  colonFree a -> colonFree a' ->
  a +:+ ":" +:+ b = a' +:+ ":" +:+ b' -> a = a' /\ b = b'.
Proof.
  revert a'. induction a as [|c a IH]; intros [|c' a'] Ha Ha' H;
    repeat (rewrite append_empty in H || rewrite append_String in H);
    simpl in Ha, Ha'.
  - split; [reflexivity | congruence].
  - injection H as Hc _. destruct Ha' as [Hne _]. congruence.
  - injection H as Hc _. destruct Ha as [Hne _]. congruence.
  - injection H as Hc Hr. destruct Ha as [_ Ha], Ha' as [_ Ha'].
    destruct (IH a' Ha Ha' Hr) as [-> ->]. now subst.
Qed.

(** C7. [tileKey tx ty] is the string [tx:ty] without padding, for instance
    [tileKey 3 (-2) = "3:-2"], and distinct pairs of integers, negative ones
    included, have distinct keys. *)
Theorem tileKey_injective (tx1 ty1 tx2 ty2 : Z) :
  (tx1, ty1) <> (tx2, ty2) ->
  tileKey tx1 ty1 <> tileKey tx2 ty2
  /\ tileKey 3 (-2) = "3:-2"%string
  /\ tileKey tx1 ty1 = numberToString tx1 +:+ ":" +:+ numberToString ty1.
Proof.
  intros Hne. repeat split.
  intros Heq. apply Hne. unfold tileKey in Heq.
  apply split_at_colon in Heq as [Hx Hy]; try apply colonFree_numberToString.
  apply numberToString_inj in Hx, Hy. now subst.
Qed.

Lemma tileKey_injective_witness :
  (3, -2) <> (-3, 2) /\ tileKey 3 (-2) <> tileKey (-3) 2.
Proof.
  assert ((3, -2) <> (-3, 2)) as Hne by (intros [= H _]; lia).
  split; [exact Hne | exact (proj1 (tileKey_injective 3 (-2) (-3) 2 Hne))].
Defined.

(** ** Colour lookup: proofs *)

Lemma toUpperCase_length (s : string) : String.length (toUpperCase s) = String.length s.
Proof. induction s; simpl; congruence. Qed.

Lemma toUpperCase_app (a b : string) :
  toUpperCase (a +:+ b) = toUpperCase a +:+ toUpperCase b.
Proof.
  induction a as [|c a IH]; [reflexivity|].
  rewrite append_String. simpl. now rewrite IH, append_String.
Qed.

Lemma length_append (a b : string) :
  String.length (a +:+ b) = (String.length a + String.length b)%nat.
Proof.
  induction a as [|c a IH]; [reflexivity|].
  rewrite append_String. simpl. now rewrite IH.
Qed.

(** Strings that differ in case only have the same normal form. *)
Lemma norm_case_insensitive (a b : string) :
  toUpperCase a = toUpperCase b -> norm a = norm b.
Proof.
  intros H. unfold norm. rewrite H.
  now rewrite <- (toUpperCase_length a), H, toUpperCase_length.
Qed.

(** [#RRGGBB] and [#RRGGBBFF] have the same normal form. *)
Lemma norm_append_alpha (hex : string) :
  String.length hex = 7%nat -> norm (hex +:+ "FF") = norm hex.
Proof.
  intros H. unfold norm. rewrite length_append, H. simpl.
  now rewrite toUpperCase_app.
Qed.

(** What [findIndex] returns: [-1] when no element passes the test, else the
    position of the first one that does. *)
Lemma findIndexFrom_spec {A : Type} (pred : A -> bool) (arr : list A) (k : Z) :
  (findIndexFrom pred arr k = -1 /\ forall a, a ∈ arr -> pred a = false)
  \/ (exists (i : nat) (a : A),
         findIndexFrom pred arr k = k + Z.of_nat i
         /\ arr !! i = Some a /\ pred a = true
         /\ forall (j : nat) (b : A), (j < i)%nat -> arr !! j = Some b -> pred b = false).
Proof.
  revert k. induction arr as [|a arr IH]; intros k; simpl.
  - left. split; [reflexivity|]. intros a Ha. inversion Ha.
  - destruct (pred a) eqn:Hp.
    + right. exists 0%nat, a. repeat split; [lia | assumption | intros; lia].
    + destruct (IH (k + 1)) as [[Hr Hall] | (i & b & Hr & Hi & Hb & Hlt)].
      * left. split; [assumption|]. intros c Hc.
        apply elem_of_cons in Hc as [-> | Hc]; auto.
      * right. exists (S i), b. repeat split; [lia | assumption | assumption |].
        intros [|j] c Hj Hc; simpl in Hc; [congruence|]. apply (Hlt j c); [lia | assumption].
Qed.

Lemma findIndexFrom_range {A : Type} (pred : A -> bool) (arr : list A) (k : Z) :
  findIndexFrom pred arr k = -1
  \/ k <= findIndexFrom pred arr k < k + Z.of_nat (length arr).
Proof.
  destruct (findIndexFrom_spec pred arr k) as [[Hr _] | (i & a & Hr & Hi & _)].
  - now left.
  - right. apply lookup_lt_Some in Hi. lia.
Qed.

(** In a list without repeated normal forms every entry is found where it is. *)
Lemma findIndexFrom_nodup (cs : list string) (i : nat) (c : string) (k : Z) :
  NoDup (norm <$> cs) -> cs !! i = Some c ->
  findIndexFrom (fun c' => String.eqb (norm c') (norm c)) cs k = k + Z.of_nat i.
Proof.
  revert i k. induction cs as [|c0 cs IH]; intros i k Hnd Hi; [discriminate|].
  rewrite fmap_cons in Hnd. apply NoDup_cons in Hnd as [Hnotin Hnd].
  destruct i as [|i]; simpl in *.
  - injection Hi as ->. rewrite String.eqb_refl. lia.
  - destruct (String.eqb_spec (norm c0) (norm c)) as [Heq | Hne].
    + exfalso. apply Hnotin. rewrite Heq.
      apply list_elem_of_fmap. exists c. split; [reflexivity|].
      apply list_elem_of_lookup. now exists i.
    + rewrite (IH i (k + 1) Hnd Hi). lia.
Qed.

(** The two outcomes of [findColorIndex]. *)
Lemma findColorIndex_cases (color : string) (palette : Palette.t) :
  (findColorIndex color palette = -1
   /\ forall c, c ∈ Palette.colors palette -> norm c <> norm color)
  \/ (exists (i : nat) (c : string),
         findColorIndex color palette = Z.of_nat i
         /\ Palette.colors palette !! i = Some c /\ norm c = norm color
         /\ forall (j : nat) (c' : string),
             (j < i)%nat -> Palette.colors palette !! j = Some c' -> norm c' <> norm color).
Proof.
  unfold findColorIndex, findIndex. cbn zeta.
  destruct (findIndexFrom_spec (fun c => String.eqb (norm c) (norm color))
              (Palette.colors palette) 0) as [[Hr Hall] | (i & c & Hr & Hi & Hc & Hlt)].
  - left. split; [assumption|]. intros c Hc Heq.
    specialize (Hall c Hc). apply String.eqb_neq in Hall. contradiction.
  - right. exists i, c. repeat split; [lia | assumption | now apply String.eqb_eq |].
    intros j c' Hj Hc'. apply String.eqb_neq. eauto.
Qed.

(** C6. [findColorIndex] brings a colour of seven characters ([#RRGGBB]) to
    the eight-digit form by appending [FF], compares without regard to case
    with the entries of the palette in order, and returns the index of the
    first match, [-1] when nothing matches.  [#FFFFFF] and [#FFFFFFFF] are
    both found at index 0 of [CLASSIC_PALETTE], and [-1] is not a valid
    index. *)
Theorem findColorIndex_first_match (color : string) (palette : Palette.t) :
  let r := findColorIndex color palette in
  let cs := Palette.colors palette in
  (norm color
   = if (String.length color =? 7)%nat then toUpperCase color +:+ "FF" else toUpperCase color)
  /\ ((r = -1 /\ forall c, c ∈ cs -> norm c <> norm color)
      \/ (exists (i : nat) (c : string),
             r = Z.of_nat i /\ cs !! i = Some c /\ norm c = norm color
             /\ forall (j : nat) (c' : string),
                 (j < i)%nat -> cs !! j = Some c' -> norm c' <> norm color))
  /\ (forall color' : string,
         toUpperCase color' = toUpperCase color -> findColorIndex color' palette = r)
  /\ (String.length color = 7%nat -> findColorIndex (color +:+ "FF") palette = r)
  /\ (findColorIndex "#FFFFFF" CLASSIC_PALETTE = 0
      /\ findColorIndex "#FFFFFFFF" CLASSIC_PALETTE = 0)
  /\ ((r = -1 \/ 0 <= r < Z.of_nat (length cs))
      /\ isValidColorIndex (ofZ (-1)) palette = false).
Proof.
  cbn zeta.
  split; [reflexivity|]. split; [apply findColorIndex_cases|].
  unfold findColorIndex, findIndex. cbn zeta.
  split; [|split; [|split]].
  - intros color' H. now rewrite (norm_case_insensitive _ _ H).
  - intros H. now rewrite (norm_append_alpha _ H).
  - split; reflexivity.
  - split; [|reflexivity].
    destruct (findIndexFrom_range (fun c => String.eqb (norm c) (norm color))
                (Palette.colors palette) 0); [now left | right; lia].
Qed.

Lemma findColorIndex_first_match_witness :
  (toUpperCase "#ffaa00" = toUpperCase "#FFAA00"
   /\ findColorIndex "#ffaa00" CLASSIC_PALETTE = findColorIndex "#FFAA00" CLASSIC_PALETTE)
  /\ (String.length "#FFAA00" = 7%nat
      /\ findColorIndex "#FFAA00FF" CLASSIC_PALETTE = findColorIndex "#FFAA00" CLASSIC_PALETTE)
  /\ findColorIndex "#FFAA00" CLASSIC_PALETTE = 5.
Proof.
  destruct (findColorIndex_first_match "#FFAA00" CLASSIC_PALETTE)
    as (_ & _ & Hcase & Halpha & _).
  split; [|split].
  - split; [reflexivity | exact (Hcase "#ffaa00"%string eq_refl)].
  - split; [reflexivity | exact (Halpha eq_refl)].
  - reflexivity.
Defined.

(** C9. [DEFAULT_BASELINE_COLOR_INDEX] is the index of [#FFFFFF] in the
    default palette when that index is not negative and 0 when white is
    absent from it; with the shipped catalog it is 0, the position of white
    in the classic palette. *)
Theorem default_baseline_color_index :
  DEFAULT_BASELINE_COLOR_INDEX = baselineColorIndex DEFAULT_PALETTE
  /\ (forall dp : Palette.t,
         0 <= findColorIndex "#FFFFFF" dp ->
         baselineColorIndex dp = findColorIndex "#FFFFFF" dp)
  /\ (forall dp : Palette.t,
         (forall c, c ∈ Palette.colors dp -> norm c <> "#FFFFFFFF"%string) ->
         baselineColorIndex dp = 0)
  /\ DEFAULT_BASELINE_COLOR_INDEX = 0
  /\ DEFAULT_BASELINE_COLOR_INDEX = findColorIndex "#FFFFFF" DEFAULT_PALETTE
  /\ Palette.colors CLASSIC_PALETTE !! 0%nat = Some "#FFFFFFFF"%string.
Proof.
  split; [reflexivity|]. split; [|split; [|repeat split]].
  - intros dp H. unfold baselineColorIndex. cbn zeta.
    destruct (Z.geb_spec (findColorIndex "#FFFFFF" dp) 0); [reflexivity | lia].
  - intros dp Habsent. unfold baselineColorIndex. cbn zeta.
    destruct (findColorIndex_cases "#FFFFFF" dp) as [[Hr _] | (i & c & _ & Hi & Hc & _)].
    + now rewrite Hr.
    + exfalso. apply (Habsent c); [|exact Hc].
      apply list_elem_of_lookup. now exists i.
Qed.

Lemma default_baseline_color_index_witness :
  (0 <= findColorIndex "#FFFFFF" CLASSIC_PALETTE
   /\ baselineColorIndex CLASSIC_PALETTE = findColorIndex "#FFFFFF" CLASSIC_PALETTE)
  /\ (findColorIndex "#FFFFFF" EARTH_PALETTE = -1
      /\ baselineColorIndex EARTH_PALETTE = 0).
Proof.
  destruct default_baseline_color_index as (_ & Hfound & Habsent & _).
  split.
  - assert (0 <= findColorIndex "#FFFFFF" CLASSIC_PALETTE) as H by (vm_compute; discriminate).
    split; [exact H | exact (Hfound CLASSIC_PALETTE H)].
  - split; [reflexivity|].
    apply Habsent. intros c Hc.
    each_member Hc ltac:(vm_compute; discriminate).
Defined.

(** C10. In each of the three shipped palettes the 16 entries are pairwise
    distinct after normalisation, so looking up the colour at a valid index
    returns that index: [findColorIndex (p.colors[i], p) = i]. *)
Theorem palette_lookup_roundtrip (p : Palette.t) (i : nat) :
  p ∈ palettes PALETTE_SET ->
  (i < length (Palette.colors p))%nat ->
  length (Palette.colors p) = 16%nat
  /\ NoDup (norm <$> Palette.colors p)
  /\ exists c : string,
      Palette.colors p !! i = Some c /\ findColorIndex c p = Z.of_nat i.
Proof.
  intros Hp Hi.
  assert (length (Palette.colors p) = 16%nat /\ NoDup (norm <$> Palette.colors p))
    as [Hlen Hnd].
  { unfold PALETTE_SET in Hp. cbn [palettes] in Hp.
    each_member Hp ltac:(split; [reflexivity | decide_by_eval]). }
  repeat split; try assumption.
  destruct (lookup_lt_is_Some_2 _ _ Hi) as [c Hc].
  exists c. split; [assumption|].
  unfold findColorIndex, findIndex. cbn zeta.
  rewrite (findIndexFrom_nodup _ i c 0 Hnd Hc). lia.
Qed.

Lemma palette_lookup_roundtrip_witness :
  (EARTH_PALETTE ∈ palettes PALETTE_SET
   /\ (5 < length (Palette.colors EARTH_PALETTE))%nat)
  /\ findColorIndex "#B78A56FF" EARTH_PALETTE = 5.
Proof.
  assert (EARTH_PALETTE ∈ palettes PALETTE_SET) as Hin
    by (apply list_elem_of_lookup; exists 1%nat; reflexivity).
  assert (5 < length (Palette.colors EARTH_PALETTE))%nat as Hlt by (simpl; lia).
  split; [split; assumption|].
  destruct (palette_lookup_roundtrip EARTH_PALETTE 5 Hin Hlt) as (_ & _ & c & Hc & Hr).
  injection Hc as <-. exact Hr.
Defined.

(** ** Palette ordinals: proofs *)

Lemma forEach_recordIndex_other (pals : list Palette.t) (k : string) (i : Z)
      (m : gmap string number) :
  (forall p, p ∈ pals -> Palette.id p <> k) ->
  forEachFrom recordIndex pals i m !! k = m !! k.
Proof.
  revert i m. induction pals as [|p pals IH]; intros i m Hk; simpl; [reflexivity|].
  rewrite IH by (intros q Hq; apply Hk; now right).
  unfold recordIndex. destruct (String.eqb _ _); [reflexivity|].
  apply lookup_insert_ne. apply Hk. now left.
Qed.

Lemma forEach_recordIndex_lookup (pals : list Palette.t) (j : nat) (p : Palette.t)
      (i : Z) (m : gmap string number) :
  Palette.id p <> "__proto__"%string ->
  NoDup (Palette.id <$> pals) -> pals !! j = Some p ->
  forEachFrom recordIndex pals i m !! Palette.id p = Some (ofZ (i + Z.of_nat j)).
Proof.
  intros Hproto.
  revert j i m. induction pals as [|p0 pals IH]; intros j i m Hnd Hj; [discriminate|].
  rewrite fmap_cons in Hnd. apply NoDup_cons in Hnd as [Hnotin Hnd].
  destruct j as [|j]; simpl in *.
  - injection Hj as ->.
    rewrite forEach_recordIndex_other.
    + unfold recordIndex. apply String.eqb_neq in Hproto. rewrite Hproto.
      rewrite lookup_insert_eq. do 2 f_equal. lia.
    + intros q Hq Heq. apply Hnotin. rewrite <- Heq.
      apply list_elem_of_fmap. now exists q.
  - rewrite (IH j (i + 1) _ Hnd Hj). do 2 f_equal. lia.
Qed.

(** No palette of the catalog is called [__proto__]. *)
Lemma catalog_ids_recorded (p : Palette.t) :
  p ∈ palettes PALETTE_SET -> Palette.id p <> "__proto__"%string.
Proof.
  intros Hp. unfold PALETTE_SET in Hp. cbn [palettes] in Hp.
  each_member Hp ltac:(discriminate).
Qed.

Lemma catalog_ids_distinct : NoDup (Palette.id <$> palettes PALETTE_SET).
Proof. decide_by_eval. Qed.

Lemma Number_isInteger_ofZ (z : Z) : Number_isInteger (ofZ z) = true.
Proof. apply Number_isInteger_iff. exists z. apply isInt_ofZ. Qed.

Lemma arrayGet_int {A : Type} (arr : list A) (n : number) (z : Z) :
  isInt n z -> 0 <= z -> arrayGet arr n = arr !! Z.to_nat z.
Proof.
  intros Hz Hpos.
  assert (Number_isInteger n = true) as Hint by (apply Number_isInteger_iff; now exists z).
  destruct n as [q| |neg]; simpl in Hz; try contradiction.
  unfold arrayGet. rewrite Hint.
  assert (Qfloor q = z) as -> by (rewrite Hz; apply Qfloor_Z).
  destruct (Z.leb_spec 0 z); [reflexivity | lia].
Qed.

Lemma arrayGet_outside {A : Type} (arr : list A) (n : number) :
  ~ (exists z : Z, isInt n z /\ 0 <= z < Z.of_nat (length arr)) ->
  arrayGet arr n = None.
Proof.
  intros Hout. destruct n as [q| |neg]; try reflexivity.
  unfold arrayGet.
  destruct (Number_isInteger (Num q)) eqn:Hint; [|reflexivity].
  apply Number_isInteger_iff in Hint as [z Hz].
  assert (Qfloor q = z) as -> by (simpl in Hz; rewrite Hz; apply Qfloor_Z).
  destruct (Z.leb_spec 0 z); [|reflexivity]. simpl.
  apply lookup_ge_None.
  destruct (decide (Z.to_nat z < length arr)%nat); [|lia].
  exfalso. apply Hout. exists z. split; [assumption | lia].
Qed.

Lemma paletteIdToOrdinal_known (i : nat) (p : Palette.t) :
  palettes PALETTE_SET !! i = Some p ->
  paletteIdToOrdinal (Palette.id p) = Some (ofZ (Z.of_nat i)).
Proof.
  intros Hi. unfold paletteIdToOrdinal, PALETTE_INDEX_BY_ID, indexById. cbn zeta.
  assert (Palette.id p <> "__proto__"%string) as Hproto
    by (apply catalog_ids_recorded, list_elem_of_lookup; eauto).
  rewrite (forEach_recordIndex_lookup _ i p 0 ∅ Hproto catalog_ids_distinct Hi).
  rewrite Z.add_0_l. unfold isIntegerValue. now rewrite Number_isInteger_ofZ.
Qed.

Lemma paletteIdToOrdinal_unknown (id : string) :
  (forall p, p ∈ palettes PALETTE_SET -> Palette.id p <> id) ->
  paletteIdToOrdinal id = paletteIdToOrdinal (Palette.id DEFAULT_PALETTE).
Proof.
  intros Hid. unfold paletteIdToOrdinal at 1. cbn zeta.
  unfold PALETTE_INDEX_BY_ID at 1 2, indexById.
  rewrite (forEach_recordIndex_other _ id 0 ∅ Hid), lookup_empty. simpl.
  symmetry. apply (paletteIdToOrdinal_known 0 DEFAULT_PALETTE). reflexivity.
Qed.

Lemma ordinalToPaletteId_valid (i : nat) (p : Palette.t) (n : number) :
  palettes PALETTE_SET !! i = Some p -> isInt n (Z.of_nat i) ->
  ordinalToPaletteId n = Palette.id p.
Proof.
  intros Hi Hn. unfold ordinalToPaletteId.
  rewrite (arrayGet_int _ n (Z.of_nat i) Hn) by lia.
  now rewrite Nat2Z.id, Hi.
Qed.

(** C3. [paletteIdToOrdinal] returns the catalog position of a known id
    ([classic] is at 0) and, silently, the ordinal of the default palette for
    an id that is not in the catalog; [ordinalToPaletteId] returns the id at
    a valid ordinal ([classic] at 0) and, silently, the id of the default
    palette for every other ordinal, 999 for one; so
    [ordinalToPaletteId (paletteIdToOrdinal id) = id] for the ids of the
    catalog. *)
Theorem palette_ordinal_resolution :
  (forall (i : nat) (p : Palette.t),
      palettes PALETTE_SET !! i = Some p ->
      paletteIdToOrdinal (Palette.id p) = Some (ofZ (Z.of_nat i)))
  /\ paletteIdToOrdinal "classic" = Some (ofZ 0)
  /\ (forall id : string,
         (forall p, p ∈ palettes PALETTE_SET -> Palette.id p <> id) ->
         paletteIdToOrdinal id = paletteIdToOrdinal (Palette.id DEFAULT_PALETTE)
         /\ paletteIdToOrdinal id = Some (ofZ 0))
  /\ (forall (i : nat) (p : Palette.t) (n : number),
         palettes PALETTE_SET !! i = Some p -> isInt n (Z.of_nat i) ->
         ordinalToPaletteId n = Palette.id p)
  /\ ordinalToPaletteId (ofZ 0) = "classic"%string
  /\ (forall n : number,
         ~ (exists z : Z, isInt n z /\ 0 <= z < Z.of_nat (length (palettes PALETTE_SET))) ->
         ordinalToPaletteId n = Palette.id DEFAULT_PALETTE)
  /\ (ordinalToPaletteId (ofZ 999) = Palette.id DEFAULT_PALETTE
      /\ Palette.id DEFAULT_PALETTE = defaultPaletteId PALETTE_SET)
  /\ (forall p : Palette.t,
         p ∈ palettes PALETTE_SET ->
         exists n : number,
           paletteIdToOrdinal (Palette.id p) = Some n
           /\ ordinalToPaletteId n = Palette.id p).
Proof.
  split; [exact paletteIdToOrdinal_known|].
  split; [exact (paletteIdToOrdinal_known 0 CLASSIC_PALETTE eq_refl)|].
  split.
  { intros id Hid. rewrite (paletteIdToOrdinal_unknown id Hid).
    split; [reflexivity | exact (paletteIdToOrdinal_known 0 DEFAULT_PALETTE eq_refl)]. }
  split; [exact ordinalToPaletteId_valid|].
  split; [exact (ordinalToPaletteId_valid 0 CLASSIC_PALETTE (ofZ 0) eq_refl (isInt_ofZ 0))|].
  split.
  { intros n Hout. unfold ordinalToPaletteId. now rewrite (arrayGet_outside _ n Hout). }
  split; [split; reflexivity|].
  intros p Hp. apply list_elem_of_lookup in Hp as [i Hi].
  exists (ofZ (Z.of_nat i)). split.
  - now apply paletteIdToOrdinal_known.
  - apply (ordinalToPaletteId_valid i); [assumption | apply isInt_ofZ].
Qed.

Lemma palette_ordinal_resolution_witness :
  (palettes PALETTE_SET !! 2%nat = Some SHADES_PALETTE
   /\ paletteIdToOrdinal "shades" = Some (ofZ 2)
   /\ ordinalToPaletteId (ofZ 2) = "shades"%string)
  /\ ((forall p, p ∈ palettes PALETTE_SET -> Palette.id p <> "neon"%string)
      /\ paletteIdToOrdinal "neon" = Some (ofZ 0))
  /\ ordinalToPaletteId (Num (3 # 2)) = "classic"%string.
Proof.
  destruct palette_ordinal_resolution as (Hknown & _ & Hunknown & Hvalid & _ & Hout & _).
  assert (forall p, p ∈ palettes PALETTE_SET -> Palette.id p <> "neon"%string) as Hneon.
  { intros p Hp. each_member Hp ltac:(discriminate). }
  split; [|split].
  - split; [reflexivity|]. split.
    + exact (Hknown 2%nat SHADES_PALETTE eq_refl).
    + exact (Hvalid 2%nat SHADES_PALETTE (ofZ 2) eq_refl (isInt_ofZ 2)).
  - split; [exact Hneon | exact (proj2 (Hunknown "neon"%string Hneon))].
  - apply Hout. intros [z [Hz _]]. simpl in Hz.
    unfold Qeq in Hz. simpl in Hz. lia.
Defined.

(** ** Delta convergence: proofs *)

#[global] Instance seqLe_total : Total seqLe.
Proof. intros a b. unfold seqLe. lia. Qed.

#[global] Instance seqLe_transitive : Transitive seqLe.
Proof. intros a b d. unfold seqLe. lia. Qed.

Lemma filter_bool_Permutation {A : Type} (f : A -> bool) (l l' : list A) :
  l ≡ₚ l' -> List.filter f l ≡ₚ List.filter f l'.
Proof.
  induction 1 as [|a l l' _ IH|a b l|l l' l'' _ IH1 _ IH2]; simpl.
  - reflexivity.
  - destruct (f a); [now constructor | assumption].
  - destruct (f a), (f b); try reflexivity. apply perm_swap.
  - now transitivity (List.filter f l').
Qed.

Lemma elem_of_filter_bool {A : Type} (f : A -> bool) (l : list A) (a : A) :
  a ∈ List.filter f l <-> a ∈ l /\ f a = true.
Proof. rewrite !list_elem_of_In. apply filter_In. Qed.

(** Batches with pairwise distinct [seq] are told apart by their [seq]. *)
Lemma seq_determines_batch (l : list TileDelta.t) (a b : TileDelta.t) :
  NoDup (TileDelta.seq <$> l) -> a ∈ l -> b ∈ l ->
  TileDelta.seq a = TileDelta.seq b -> a = b.
Proof.
  induction l as [|d l IH]; intros Hnd Ha Hb Heq; [inversion Ha|].
  rewrite fmap_cons in Hnd. apply NoDup_cons in Hnd as [Hnotin Hnd].
  apply elem_of_cons in Ha as [-> | Ha]; apply elem_of_cons in Hb as [-> | Hb].
  - reflexivity.
  - exfalso. apply Hnotin. rewrite Heq. apply list_elem_of_fmap. now exists b.
  - exfalso. apply Hnotin. rewrite <- Heq. apply list_elem_of_fmap. now exists a.
  - now apply IH.
Qed.

(** Sorting forgets the order of arrival: two arrivals of the same batches,
    told apart by their [seq], sort to the same list. *)
Lemma sortBySeq_canonical (l l' : list TileDelta.t) :
  (forall a b, a ∈ l -> b ∈ l -> TileDelta.seq a = TileDelta.seq b -> a = b) ->
  l ≡ₚ l' -> sortBySeq l = sortBySeq l'.
Proof.
  intros Hinj Hperm. unfold sortBySeq.
  apply (Sorted_unique_strong seqLe).
  - intros a b Ha Hb Hab Hba.
    rewrite merge_sort_Permutation in Ha, Hb. rewrite <- Hperm in Hb.
    apply Hinj; try assumption. unfold seqLe in *. lia.
  - apply Sorted_merge_sort; apply _.
  - apply Sorted_merge_sort; apply _.
  - now rewrite !merge_sort_Permutation.
Qed.

Lemma applyInOrder_app (g : TileGrid) (l l' : list TileDelta.t) :
  applyInOrder g (l ++ l') = applyInOrder (applyInOrder g l) l'.
Proof. unfold applyInOrder. apply fold_left_app. Qed.

Section OneClient.
Variable c : ClientTile.

Lemma keep_Permutation (l l' : list TileDelta.t) :
  l ≡ₚ l' -> keep c l ≡ₚ keep c l'.
Proof. apply filter_bool_Permutation. Qed.

Lemma elem_of_keep (l : list TileDelta.t) (d : TileDelta.t) :
  d ∈ keep c l <-> d ∈ l /\ addressedTo c d = true /\ lastApplied c < TileDelta.seq d.
Proof.
  unfold keep. rewrite elem_of_filter_bool, andb_true_iff, negb_true_iff.
  unfold isStale. rewrite Z.leb_gt. tauto.
Qed.

Lemma elem_of_discarded (l : list TileDelta.t) (d : TileDelta.t) :
  d ∈ discarded c l <-> d ∈ l /\ addressedTo c d = true /\ TileDelta.seq d <= lastApplied c.
Proof.
  unfold discarded. rewrite elem_of_filter_bool, andb_true_iff.
  unfold isStale. rewrite Z.leb_le. tauto.
Qed.

(** Every batch for the tile is either discarded or kept. *)
Lemma discarded_keep_Permutation (l : list TileDelta.t) :
  Forall (fun d => addressedTo c d = true) l ->
  discarded c l ++ keep c l ≡ₚ l.
Proof.
  induction 1 as [|d l Hd _ IH]; [reflexivity|].
  unfold discarded, keep in *. simpl. rewrite Hd. simpl.
  destruct (isStale c d); simpl.
  - now constructor.
  - rewrite <- Permutation_middle. now constructor.
Qed.

(** In ascending order the discarded batches come first. *)
Lemma sortBySeq_discarded_keep (l : list TileDelta.t) :
  Forall (fun d => addressedTo c d = true) l ->
  NoDup (TileDelta.seq <$> l) ->
  sortBySeq l = sortBySeq (discarded c l) ++ sortBySeq (keep c l).
Proof.
  intros Haddr Hnd. unfold sortBySeq.
  apply (StronglySorted_unique_strong seqLe).
  - intros a b Ha Hb Hab Hba.
    rewrite merge_sort_Permutation in Ha.
    rewrite !merge_sort_Permutation, discarded_keep_Permutation in Hb by assumption.
    apply (seq_determines_batch l); try assumption. unfold seqLe in *. lia.
  - apply StronglySorted_merge_sort; apply _.
  - apply StronglySorted_app_2; try (apply StronglySorted_merge_sort; apply _).
    intros a b Ha Hb. rewrite merge_sort_Permutation in Ha, Hb.
    apply elem_of_discarded in Ha as (_ & _ & Ha).
    apply elem_of_keep in Hb as (_ & _ & Hb).
    unfold seqLe. lia.
  - rewrite !merge_sort_Permutation. symmetry.
    now apply discarded_keep_Permutation.
Qed.

(** For batches of the client's tile, keeping is filtering on
    [seq > lastApplied] and discarding is filtering on [seq <= lastApplied]. *)
Lemma keep_is_filter (l : list TileDelta.t) :
  Forall (fun d => addressedTo c d = true) l ->
  keep c l = List.filter (fun d => lastApplied c <? TileDelta.seq d) l
  /\ discarded c l = List.filter (fun d => TileDelta.seq d <=? lastApplied c) l.
Proof.
  induction 1 as [|d l Hd _ [IHk IHd]]; [split; reflexivity|].
  unfold keep, discarded in *. simpl. rewrite Hd, IHk, IHd. unfold isStale. simpl.
  rewrite Z.ltb_antisym. split; reflexivity.
Qed.

Lemma discarded_nil_when_fresh (l : list TileDelta.t) :
  Forall (fun d => lastApplied c < TileDelta.seq d) l -> discarded c l = [].
Proof.
  induction 1 as [|d l Hd _ IH]; [reflexivity|].
  unfold discarded in *. simpl. rewrite IH. unfold isStale.
  destruct (Z.leb_spec (TileDelta.seq d) (lastApplied c)); [lia|].
  now rewrite andb_false_r.
Qed.

(** C2 (amended). For batches addressed to one tile with pairwise distinct
    [seq] and every order of arrival: the client that discards the batches
    with [seq <= lastApplied] and applies the others sorted to ascending
    [seq] ends in the state obtained by applying directly, in ascending
    [seq], the batches with [seq > lastApplied].  That is the state of
    applying all the batches directly in ascending [seq] when every batch has
    [seq > lastApplied], and more generally when applying the batches with
    [seq <= lastApplied] in ascending [seq] leaves the client's state as it
    is. *)
Theorem delta_convergence (batches arrival : list TileDelta.t) :
  Forall (fun d => addressedTo c d = true) batches ->
  NoDup (TileDelta.seq <$> batches) ->
  arrival ≡ₚ batches ->
  grid (receiveBatches c arrival)
  = applyInOrder (grid c)
      (sortBySeq (List.filter (fun d => lastApplied c <? TileDelta.seq d) batches))
  /\ (Forall (fun d => lastApplied c < TileDelta.seq d) batches ->
      grid (receiveBatches c arrival) = applyInOrder (grid c) (sortBySeq batches))
  /\ (applyInOrder (grid c)
        (sortBySeq (List.filter (fun d => TileDelta.seq d <=? lastApplied c) batches))
      = grid c ->
      grid (receiveBatches c arrival) = applyInOrder (grid c) (sortBySeq batches))
  /\ receiveBatches c arrival = receiveBatches c (sortBySeq batches).
Proof.
  intros Haddr Hnd Hperm.
  destruct (keep_is_filter batches Haddr) as [Hkeep Hdisc].
  assert (forall l, l ≡ₚ batches -> sortBySeq (keep c l) = sortBySeq (keep c batches))
    as Hsort.
  { intros l Hl. symmetry. apply sortBySeq_canonical.
    - intros a b Ha Hb. apply elem_of_keep in Ha as [Ha _], Hb as [Hb _].
      now apply (seq_determines_batch batches).
    - apply keep_Permutation. now symmetry. }
  assert (grid (receiveBatches c arrival)
          = applyInOrder (grid c) (sortBySeq (keep c batches))) as Hgrid.
  { unfold receiveBatches. cbn zeta. cbn [grid]. now rewrite (Hsort arrival Hperm). }
  assert (applyInOrder (grid c) (sortBySeq (discarded c batches)) = grid c ->
          grid (receiveBatches c arrival) = applyInOrder (grid c) (sortBySeq batches))
    as Hall.
  { intros Hheld. rewrite Hgrid.
    rewrite (sortBySeq_discarded_keep batches Haddr Hnd), applyInOrder_app.
    now rewrite Hheld. }
  split; [|split; [|split]].
  - now rewrite <- Hkeep.
  - intros Hfresh. apply Hall. now rewrite (discarded_nil_when_fresh batches Hfresh).
  - rewrite <- Hdisc. exact Hall.
  - unfold receiveBatches. cbn zeta.
    rewrite (Hsort arrival Hperm).
    rewrite (Hsort (sortBySeq batches)); [reflexivity|].
    apply merge_sort_Permutation.
Qed.
End OneClient.

Lemma delta_convergence_witness :
  (Forall (fun d => addressedTo clientAt4 d = true) [delta5; delta6; delta7]
   /\ NoDup (TileDelta.seq <$> [delta5; delta6; delta7])
   /\ [delta7; delta5; delta6] ≡ₚ [delta5; delta6; delta7]
   /\ Forall (fun d => lastApplied clientAt4 < TileDelta.seq d) [delta5; delta6; delta7])
  /\ grid (receiveBatches clientAt4 [delta7; delta5; delta6])
     = applyInOrder (grid clientAt4) [delta5; delta6; delta7]
  /\ grid (receiveBatches clientAt5 [delta7; delta5; delta6])
     = applyInOrder (grid clientAt5) [delta6; delta7]
  /\ grid (receiveBatches clientAt5 [delta7; delta5; delta6])
     = applyInOrder (grid clientAt5) [delta5; delta6; delta7].
Proof.
  assert (Forall (fun d => addressedTo clientAt4 d = true) [delta5; delta6; delta7]) as Haddr
    by (repeat constructor).
  assert (NoDup (TileDelta.seq <$> [delta5; delta6; delta7])) as Hnd
    by decide_by_eval.
  assert ([delta7; delta5; delta6] ≡ₚ [delta5; delta6; delta7]) as Hperm
    by (etransitivity; [apply perm_swap | apply perm_skip, perm_swap]).
  assert (Forall (fun d => lastApplied clientAt4 < TileDelta.seq d) [delta5; delta6; delta7])
    as Hfresh by (repeat constructor).
  split; [repeat split; assumption|].
  split; [|split].
  - exact (proj1 (proj2 (delta_convergence clientAt4 _ _ Haddr Hnd Hperm)) Hfresh).
  - exact (proj1 (delta_convergence clientAt5 _ _ Haddr Hnd Hperm)).
  - refine (proj1 (proj2 (proj2 (delta_convergence clientAt5 _ _ Haddr Hnd Hperm))) _).
    vm_compute. reflexivity.
Defined.

(** Without a condition on the discarded batches the comparison with all
    the batches fails: a client that applied batches 4 and 5 and is sent 7
    and 4 again keeps the colour batch 5 gave pixel (0, 0), while applying
    batches 4 and 7 directly to its state paints the colour of batch 4 over
    it. *)
Lemma delta_convergence_counterexample :
  (Forall (fun d => addressedTo clientHolding5 d = true) [delta4; delta7]
   /\ NoDup (TileDelta.seq <$> [delta4; delta7])
   /\ [delta7; delta4] ≡ₚ [delta4; delta7])
  /\ grid (receiveBatches clientHolding5 [delta7; delta4]) !! (0, 0)
     = Some (1, "classic"%string)
  /\ applyInOrder (grid clientHolding5) (sortBySeq [delta4; delta7]) !! (0, 0)
     = Some (9, "classic"%string)
  /\ grid (receiveBatches clientHolding5 [delta7; delta4])
     <> applyInOrder (grid clientHolding5) (sortBySeq [delta4; delta7]).
Proof.
  split; [|split; [|split]].
  - split; [repeat constructor|]. split; [decide_by_eval | apply perm_swap].
  - vm_compute. reflexivity.
  - vm_compute. reflexivity.
  - intros H. apply (f_equal (fun g : TileGrid => g !! (0, 0))) in H.
    vm_compute in H. discriminate.
Qed.

(** Applied in the order of arrival instead, the same batches leave another
    state: [delta5] overwrites what [delta7] painted at offset (1, 1). *)
Remark arrival_order_is_unsafe :
  applyInOrder ∅ [delta7; delta5; delta6] !! (1, 1) = Some (2, "classic"%string)
  /\ applyInOrder ∅ [delta5; delta6; delta7] !! (1, 1) = Some (4, "classic"%string).
Proof. split; vm_compute; reflexivity. Qed.

(** ** Coordinate system: further properties *)

Lemma tile_axis_div (t o : Z) :
  0 <= o < TILE_SIZE -> (t * TILE_SIZE + o) / TILE_SIZE = t.
Proof.
  unfold TILE_SIZE. intros Ho.
  rewrite Z.add_comm, Z.div_add by lia. rewrite Z.div_small by lia. lia.
Qed.

Lemma tile_axis_offset (t o : Z) :
  0 <= o < TILE_SIZE ->
  Z.rem (Z.rem (t * TILE_SIZE + o) TILE_SIZE + TILE_SIZE) TILE_SIZE = o.
Proof.
  intros Ho. rewrite offset_axis_mod. unfold TILE_SIZE in *.
  rewrite Z.add_comm, Z.mod_add by lia. apply Z.mod_small. lia.
Qed.

(** The tile of one axis is [t] exactly on the 64 positions from [t * 64]. *)
Lemma tile_axis_bounds (v t : Z) :
  v / TILE_SIZE = t <-> t * TILE_SIZE <= v < t * TILE_SIZE + TILE_SIZE.
Proof.
  unfold TILE_SIZE. split.
  - intros <-. pose proof (Z.div_mod v 64 ltac:(lia)).
    pose proof (Z.mod_pos_bound v 64 ltac:(lia)). lia.
  - intros Hb. symmetry. apply (Z.div_unique v 64 t (v - t * 64)); lia.
Qed.

(** X1. Going the other way round: the pixel at offset [(ox, oy)], both in
    [0, 64), of tile [(tx, ty)] is in tile [(tx, ty)] at offset [(ox, oy)];
    a pixel has one decomposition into tile and offset. *)
Theorem tile_of_origin_plus_offset (tx0 ty0 ox0 oy0 : Z) :
  0 <= ox0 < TILE_SIZE -> 0 <= oy0 < TILE_SIZE ->
  let p := addOffset (toPixelCoord tx0 ty0) {| ox := ox0; oy := oy0 |} in
  toTileCoord (x p) (y p) = {| tx := tx0; ty := ty0 |}
  /\ toTileOffset (x p) (y p) = {| ox := ox0; oy := oy0 |}.
Proof.
  intros Hx Hy. cbn zeta. unfold addOffset, toPixelCoord, toTileCoord, toTileOffset.
  cbn [x y ox oy].
  now rewrite !tile_axis_div, !tile_axis_offset.
Qed.

Lemma tile_of_origin_plus_offset_witness :
  (0 <= 63 < TILE_SIZE /\ 0 <= 0 < TILE_SIZE)
  /\ toTileCoord (-129) 128 = {| tx := -3; ty := 2 |}
  /\ toTileOffset (-129) 128 = {| ox := 63; oy := 0 |}.
Proof.
  assert (0 <= 63 < TILE_SIZE) as H1 by (unfold TILE_SIZE; lia).
  assert (0 <= 0 < TILE_SIZE) as H2 by (unfold TILE_SIZE; lia).
  split; [split; assumption|].
  exact (tile_of_origin_plus_offset (-3) 2 63 0 H1 H2).
Defined.

Lemma roundToDouble_safe (z : Z) : Z.abs z < 2 ^ 53 -> roundToDouble z = z.
Proof.
  intros H. unfold roundToDouble. cbn zeta.
  destruct (Z.ltb_spec (Z.abs z) (2 ^ 53)); [reflexivity | lia].
Qed.

(** X2. The origin of a tile, [toPixelCoord], is the pixel of that tile at
    offset [(0, 0)].  The centre, [toCenteredPixelCoord], is the pixel of
    that tile at offset [(32, 32)] for the tiles from [-2^47] up to, not
    including, [2^47], whose centre is below [2^53]; further out the
    addition of 32 rounds, and at tile [2^52] the centre returned is the
    origin. *)
Theorem tile_center_in_tile (tx0 ty0 : Z) :
  let c := toCenteredPixelCoord tx0 ty0 in
  let o := toPixelCoord tx0 ty0 in
  (toTileCoord (x o) (y o) = {| tx := tx0; ty := ty0 |}
   /\ toTileOffset (x o) (y o) = {| ox := 0; oy := 0 |})
  /\ (- 2 ^ 47 <= tx0 < 2 ^ 47 -> - 2 ^ 47 <= ty0 < 2 ^ 47 ->
      toTileCoord (x c) (y c) = {| tx := tx0; ty := ty0 |}
      /\ toTileOffset (x c) (y c) = {| ox := 32; oy := 32 |})
  /\ toCenteredPixelCoord (2 ^ 52) 0 = {| x := 2 ^ 58; y := 32 |}.
Proof.
  cbn zeta.
  assert (0 <= 32 < TILE_SIZE) as Hc by (unfold TILE_SIZE; lia).
  assert (0 <= 0 < TILE_SIZE) as Hz by (unfold TILE_SIZE; lia).
  split; [|split].
  - unfold toPixelCoord, toTileCoord, toTileOffset. cbn [x y].
    replace (tx0 * TILE_SIZE) with (tx0 * TILE_SIZE + 0) by lia.
    replace (ty0 * TILE_SIZE) with (ty0 * TILE_SIZE + 0) by lia.
    now rewrite !(tile_axis_div _ 0 Hz), !(tile_axis_offset _ 0 Hz).
  - intros Hx Hy.
    unfold toCenteredPixelCoord, toTileCoord, toTileOffset. cbn [x y].
    change (TILE_SIZE / 2) with 32.
    rewrite !roundToDouble_safe by (unfold TILE_SIZE; lia).
    now rewrite !(tile_axis_div _ 32 Hc), !(tile_axis_offset _ 32 Hc).
  - vm_compute. reflexivity.
Qed.

Lemma tile_center_in_tile_witness :
  (- 2 ^ 47 <= -3 < 2 ^ 47 /\ - 2 ^ 47 <= 2 ^ 47 - 1 < 2 ^ 47)
  /\ toCenteredPixelCoord (-3) (2 ^ 47 - 1) = {| x := -160; y := 2 ^ 53 - 32 |}
  /\ toTileCoord (-160) (2 ^ 53 - 32) = {| tx := -3; ty := 2 ^ 47 - 1 |}
  /\ toTileOffset (-160) (2 ^ 53 - 32) = {| ox := 32; oy := 32 |}.
Proof.
  assert (- 2 ^ 47 <= -3 < 2 ^ 47) as H1 by lia.
  assert (- 2 ^ 47 <= 2 ^ 47 - 1 < 2 ^ 47) as H2 by lia.
  split; [split; assumption|].
  split; [vm_compute; reflexivity|].
  exact (proj1 (proj2 (tile_center_in_tile (-3) (2 ^ 47 - 1))) H1 H2).
Defined.

(** X3. A pixel belongs to tile [(a, b)] exactly when it lies in the square
    of 64 by 64 pixels whose top-left corner is [toPixelCoord a b], for
    negative coordinates too. *)
Theorem tile_bounds (px py a b : Z) :
  toTileCoord px py = {| tx := a; ty := b |}
  <-> (x (toPixelCoord a b) <= px < x (toPixelCoord a b) + 64
       /\ y (toPixelCoord a b) <= py < y (toPixelCoord a b) + 64).
Proof.
  unfold toTileCoord, toPixelCoord. cbn [x y].
  change 64 with TILE_SIZE. rewrite <- !tile_axis_bounds.
  split; [intros [= -> ->]; split; reflexivity | intros [-> ->]; reflexivity].
Qed.

(** X4. Moving a pixel by whole tiles moves its tile by as many and keeps
    its offset; and the offset of an offset is itself. *)
Theorem tile_translation (px py k l : Z) :
  let t := toTileCoord px py in
  let o := toTileOffset px py in
  toTileCoord (px + 64 * k) (py + 64 * l) = {| tx := tx t + k; ty := ty t + l |}
  /\ toTileOffset (px + 64 * k) (py + 64 * l) = o
  /\ toTileOffset (ox o) (oy o) = o
  /\ toTileCoord (ox o) (oy o) = {| tx := 0; ty := 0 |}.
Proof.
  cbn zeta. unfold toTileCoord, toTileOffset. cbn [tx ty ox oy].
  rewrite !offset_axis_mod. unfold TILE_SIZE.
  pose proof (Z.mod_pos_bound px 64 ltac:(lia)).
  pose proof (Z.mod_pos_bound py 64 ltac:(lia)).
  rewrite !(Z.mul_comm 64), !Z.div_add, !Z.mod_add by lia.
  rewrite !Z.mod_mod by lia.
  rewrite (Z.div_small (px mod 64)), (Z.div_small (py mod 64)) by lia.
  repeat split.
Qed.

(** X5. Tiles are ordered like the pixels: a pixel further right (down) is
    in the same tile column (row) or a later one, and two pixels of one tile
    are less than 64 apart on each axis. *)
Theorem tile_monotone (px py qx qy : Z) :
  px <= qx -> py <= qy ->
  let s := toTileCoord px py in
  let t := toTileCoord qx qy in
  (tx s <= tx t /\ ty s <= ty t)
  /\ (s = t -> qx - px < 64 /\ qy - py < 64).
Proof.
  intros Hx Hy. cbn zeta. unfold toTileCoord. cbn [tx ty]. unfold TILE_SIZE.
  split.
  - split; apply Z.div_le_mono; lia.
  - intros [= Ha Hb].
    pose proof (proj1 (tile_axis_bounds px (px / 64)) eq_refl).
    pose proof (proj1 (tile_axis_bounds qx (px / 64)) (eq_sym Ha)).
    pose proof (proj1 (tile_axis_bounds py (py / 64)) eq_refl).
    pose proof (proj1 (tile_axis_bounds qy (py / 64)) (eq_sym Hb)).
    unfold TILE_SIZE in *. lia.
Qed.

Lemma tile_monotone_witness :
  (-65 <= -1 /\ 0 <= 63)
  /\ tx (toTileCoord (-65) 0) <= tx (toTileCoord (-1) 63)
  /\ ty (toTileCoord (-65) 0) <= ty (toTileCoord (-1) 63).
Proof.
  assert (-65 <= -1) as H1 by lia.
  assert (0 <= 63) as H2 by lia.
  split; [split; assumption|].
  exact (proj1 (tile_monotone (-65) 0 (-1) 63 H1 H2)).
Defined.

(** ** Palette catalog: further properties *)

(** In a list of palettes with distinct ids, [find] by the id of a member
    returns that member. *)
Lemma find_by_id_member (pals : list Palette.t) (p : Palette.t) :
  NoDup (Palette.id <$> pals) -> p ∈ pals ->
  List.find (fun q => String.eqb (Palette.id q) (Palette.id p)) pals = Some p.
Proof.
  induction pals as [|p0 pals IH]; intros Hnd Hp; [inversion Hp|].
  rewrite fmap_cons in Hnd. apply NoDup_cons in Hnd as [Hnotin Hnd].
  simpl. destruct (String.eqb_spec (Palette.id p0) (Palette.id p)) as [Heq | Hne].
  - apply elem_of_cons in Hp as [-> | Hp]; [reflexivity|].
    exfalso. apply Hnotin. rewrite Heq. apply list_elem_of_fmap. now exists p.
  - apply elem_of_cons in Hp as [-> | Hp]; [congruence | now apply IH].
Qed.

Lemma getPaletteById_Some (id : string) (p : Palette.t) :
  getPaletteById id = Some p -> Palette.id p = id /\ p ∈ palettes PALETTE_SET.
Proof.
  unfold getPaletteById. intros H. apply find_some in H as [Hin Heq].
  split; [now apply String.eqb_eq | now apply list_elem_of_In].
Qed.

Lemma getPaletteById_None (id : string) :
  getPaletteById id = None
  <-> forall p, p ∈ palettes PALETTE_SET -> Palette.id p <> id.
Proof.
  unfold getPaletteById. split.
  - intros H p Hp. apply list_elem_of_In in Hp.
    apply (find_none _ _ H) in Hp. now apply String.eqb_neq.
  - intros H. destruct (List.find _ _) as [p|] eqn:Hf; [|reflexivity].
    apply find_some in Hf as [Hin Heq].
    exfalso. apply (H p); [now apply list_elem_of_In | now apply String.eqb_eq].
Qed.

(** X6. [getPaletteById] returns a palette of the catalog carrying the id
    asked for, returns nothing exactly for the ids no palette of the catalog
    has, and finds every palette of the catalog by its own id. *)
Theorem getPaletteById_lookup :
  (forall (id : string) (p : Palette.t),
      getPaletteById id = Some p -> Palette.id p = id /\ p ∈ palettes PALETTE_SET)
  /\ (forall id : string,
         getPaletteById id = None
         <-> forall p, p ∈ palettes PALETTE_SET -> Palette.id p <> id)
  /\ (forall p : Palette.t,
         p ∈ palettes PALETTE_SET -> getPaletteById (Palette.id p) = Some p).
Proof.
  split; [exact getPaletteById_Some|]. split; [exact getPaletteById_None|].
  intros p Hp. unfold getPaletteById.
  apply find_by_id_member; [exact catalog_ids_distinct | exact Hp].
Qed.

Lemma getPaletteById_lookup_witness :
  (getPaletteById "earth" = Some EARTH_PALETTE
   /\ Palette.id EARTH_PALETTE = "earth"%string)
  /\ (SHADES_PALETTE ∈ palettes PALETTE_SET
      /\ getPaletteById (Palette.id SHADES_PALETTE) = Some SHADES_PALETTE).
Proof.
  destruct getPaletteById_lookup as (Hsome & _ & Hmember).
  assert (SHADES_PALETTE ∈ palettes PALETTE_SET) as Hin
    by (apply list_elem_of_lookup; exists 2%nat; reflexivity).
  split.
  - split; [reflexivity | exact (proj1 (Hsome "earth"%string EARTH_PALETTE eq_refl))].
  - split; [exact Hin | exact (Hmember SHADES_PALETTE Hin)].
Defined.

(** X7. The two lookups by id agree on the ids of the catalog: when
    [getPaletteById] finds a palette, [paletteIdToOrdinal] is its position.
    They part on unknown ids: [getPaletteById] reports nothing while
    [paletteIdToOrdinal] answers with the position of the default palette. *)
Theorem lookups_by_id_agree (id : string) :
  match getPaletteById id with
  | Some p =>
      exists i : nat,
        paletteIdToOrdinal id = Some (ofZ (Z.of_nat i))
        /\ palettes PALETTE_SET !! i = Some p
        /\ arrayGet (palettes PALETTE_SET) (ofZ (Z.of_nat i)) = Some p
  | None =>
      paletteIdToOrdinal id = Some (ofZ 0)
      /\ arrayGet (palettes PALETTE_SET) (ofZ 0) = Some DEFAULT_PALETTE
  end.
Proof.
  destruct (getPaletteById id) as [p|] eqn:Hg.
  - apply getPaletteById_Some in Hg as [<- Hin].
    apply list_elem_of_lookup in Hin as [i Hi].
    exists i. split; [now apply paletteIdToOrdinal_known|]. split; [assumption|].
    rewrite (arrayGet_int _ _ (Z.of_nat i) (isInt_ofZ _)) by lia.
    now rewrite Nat2Z.id.
  - split; [|reflexivity].
    rewrite paletteIdToOrdinal_unknown by now apply getPaletteById_None.
    exact (paletteIdToOrdinal_known 0 DEFAULT_PALETTE eq_refl).
Qed.

(** X8. From an ordinal to the id and back: a valid ordinal comes back
    unchanged, every other number comes back as the ordinal of the default
    palette; and the id [ordinalToPaletteId] returns is always one
    [getPaletteById] finds. *)
Theorem ordinal_id_ordinal (n : number) :
  (forall i : nat,
      isInt n (Z.of_nat i) -> (i < length (palettes PALETTE_SET))%nat ->
      paletteIdToOrdinal (ordinalToPaletteId n) = Some (ofZ (Z.of_nat i)))
  /\ (~ (exists z : Z, isInt n z /\ 0 <= z < Z.of_nat (length (palettes PALETTE_SET))) ->
      paletteIdToOrdinal (ordinalToPaletteId n) = Some (ofZ 0))
  /\ (exists p : Palette.t,
         getPaletteById (ordinalToPaletteId n) = Some p
         /\ Palette.id p = ordinalToPaletteId n).
Proof.
  split; [|split].
  - intros i Hn Hi. destruct (lookup_lt_is_Some_2 _ _ Hi) as [p Hp].
    rewrite (ordinalToPaletteId_valid i p n Hp Hn).
    now apply paletteIdToOrdinal_known.
  - intros Hout. unfold ordinalToPaletteId. rewrite (arrayGet_outside _ n Hout).
    exact (paletteIdToOrdinal_known 0 DEFAULT_PALETTE eq_refl).
  - assert (exists p, p ∈ palettes PALETTE_SET /\ ordinalToPaletteId n = Palette.id p)
      as (p & Hp & Heq).
    { unfold ordinalToPaletteId.
      destruct (arrayGet (palettes PALETTE_SET) n) as [p|] eqn:Ha.
      - exists p. split; [|reflexivity].
        destruct n as [q| |neg]; simpl in Ha; try discriminate.
        destruct (_ && _); [|discriminate].
        apply list_elem_of_lookup. eauto.
      - exists DEFAULT_PALETTE. split; [|reflexivity].
        apply list_elem_of_lookup. exists 0%nat. reflexivity. }
    exists p. rewrite Heq. split; [|reflexivity].
    unfold getPaletteById.
    apply find_by_id_member; [exact catalog_ids_distinct | exact Hp].
Qed.

Lemma ordinal_id_ordinal_witness :
  (isInt (Num (4 # 2)) (Z.of_nat 2) /\ (2 < length (palettes PALETTE_SET))%nat
   /\ paletteIdToOrdinal (ordinalToPaletteId (Num (4 # 2))) = Some (ofZ 2))
  /\ paletteIdToOrdinal (ordinalToPaletteId NaN) = Some (ofZ 0).
Proof.
  assert (isInt (Num (4 # 2)) (Z.of_nat 2)) as Hint by reflexivity.
  assert (2 < length (palettes PALETTE_SET))%nat as Hlt by (simpl; lia).
  split.
  - split; [exact Hint|]. split; [exact Hlt|].
    exact (proj1 (ordinal_id_ordinal (Num (4 # 2))) 2%nat Hint Hlt).
  - apply (proj1 (proj2 (ordinal_id_ordinal NaN))).
    intros [z [Hz _]]. exact Hz.
Defined.

(** X9. Whatever string it is given, [paletteIdToOrdinal] returns a number
    that is a position of the catalog, never [undefined] and never out of
    range, so the palette at the returned ordinal exists. *)
Theorem paletteIdToOrdinal_in_range (id : string) :
  exists (i : nat) (p : Palette.t),
    paletteIdToOrdinal id = Some (ofZ (Z.of_nat i))
    /\ (i < length (palettes PALETTE_SET))%nat
    /\ arrayGet (palettes PALETTE_SET) (ofZ (Z.of_nat i)) = Some p
    /\ ordinalToPaletteId (ofZ (Z.of_nat i)) = Palette.id p.
Proof.
  assert (exists (i : nat) (p : Palette.t),
             paletteIdToOrdinal id = Some (ofZ (Z.of_nat i))
             /\ palettes PALETTE_SET !! i = Some p) as (i & p & Hord & Hp).
  { destruct (getPaletteById id) as [p|] eqn:Hg.
    - apply getPaletteById_Some in Hg as [<- Hin].
      apply list_elem_of_lookup in Hin as [i Hi].
      exists i, p. split; [now apply paletteIdToOrdinal_known | assumption].
    - exists 0%nat, DEFAULT_PALETTE. split; [|reflexivity].
      rewrite paletteIdToOrdinal_unknown by now apply getPaletteById_None.
      exact (paletteIdToOrdinal_known 0 DEFAULT_PALETTE eq_refl). }
  exists i, p. split; [assumption|]. split; [now apply lookup_lt_Some in Hp|].
  split.
  - rewrite (arrayGet_int _ _ (Z.of_nat i) (isInt_ofZ _)) by lia.
    now rewrite Nat2Z.id.
  - apply (ordinalToPaletteId_valid i); [assumption | apply isInt_ofZ].
Qed.

(** The loop never writes under the key [__proto__]. *)
Lemma forEach_recordIndex_proto (pals : list Palette.t) (i : Z) (m : gmap string number) :
  forEachFrom recordIndex pals i m !! "__proto__"%string = m !! "__proto__"%string.
Proof.
  revert i m. induction pals as [|p0 pals IH]; intros i m; simpl; [reflexivity|].
  rewrite IH. unfold recordIndex.
  destruct (String.eqb_spec (Palette.id p0) "__proto__"); [reflexivity|].
  now apply lookup_insert_ne.
Qed.

(** What the [forEach] that fills the index leaves at a key other than
    [__proto__]: the index of the last palette with that id, or what the
    map held before. *)
Lemma forEach_recordIndex_cases (pals : list Palette.t) (k : string) (i : Z)
      (m : gmap string number) :
  k <> "__proto__"%string ->
  ((forall p, p ∈ pals -> Palette.id p <> k)
   /\ forEachFrom recordIndex pals i m !! k = m !! k)
  \/ (exists (j : nat) (p : Palette.t),
         pals !! j = Some p /\ Palette.id p = k
         /\ (forall (j' : nat) (q : Palette.t),
                (j < j')%nat -> pals !! j' = Some q -> Palette.id q <> k)
         /\ forEachFrom recordIndex pals i m !! k = Some (ofZ (i + Z.of_nat j))).
Proof.
  intros Hk.
  revert i m. induction pals as [|p0 pals IH]; intros i m; simpl.
  - left. split; [|reflexivity]. intros p Hp. inversion Hp.
  - destruct (IH (i + 1) (recordIndex m p0 i))
      as [[Hnone Hres] | (j & p & Hj & Hid & Hlast & Hres)].
    + destruct (decide (Palette.id p0 = k)) as [Heq | Hne].
      * right. exists 0%nat, p0. repeat split; try assumption.
        -- intros [|j'] q Hlt Hq; [lia|]. simpl in Hq.
           apply Hnone. apply list_elem_of_lookup. eauto.
        -- rewrite Hres. unfold recordIndex. rewrite Heq.
           apply String.eqb_neq in Hk. rewrite Hk, lookup_insert_eq.
           do 2 f_equal. lia.
      * left. split.
        -- intros p Hp. apply elem_of_cons in Hp as [-> | Hp]; auto.
        -- rewrite Hres. unfold recordIndex.
           destruct (String.eqb _ _); [reflexivity | now apply lookup_insert_ne].
    + right. exists (S j), p. repeat split; try assumption.
      * intros [|j'] q Hlt Hq; [lia|]. simpl in Hq. apply (Hlast j' q); [lia | assumption].
      * rewrite Hres. do 2 f_equal. lia.
Qed.

(** X10. The index built from any list of palettes maps an id to the
    position of a palette with that id, the last one when several palettes
    share the id (a later palette overwrites the entry of an earlier one).
    It has no entry for the ids no palette has, and none for [__proto__]
    even when a palette is called so: that assignment records nothing. *)
Theorem indexById_entries (pals : list Palette.t) (k : string) :
  (forall n : number,
      indexById pals !! k = Some n ->
      k <> "__proto__"%string
      /\ exists (j : nat) (p : Palette.t),
          n = ofZ (Z.of_nat j) /\ pals !! j = Some p /\ Palette.id p = k
          /\ forall (j' : nat) (q : Palette.t),
              (j < j')%nat -> pals !! j' = Some q -> Palette.id q <> k)
  /\ (indexById pals !! k = None
      <-> k = "__proto__"%string \/ forall p, p ∈ pals -> Palette.id p <> k).
Proof.
  unfold indexById.
  destruct (decide (k = "__proto__"%string)) as [-> | Hk].
  { rewrite forEach_recordIndex_proto, lookup_empty.
    split; [discriminate|]. split; [now left | reflexivity]. }
  destruct (forEach_recordIndex_cases pals k 0 ∅ Hk)
    as [[Hnone Hres] | (j & p & Hj & Hid & Hlast & Hres)];
    rewrite Hres, ?lookup_empty.
  - split; [discriminate|]. split; [intros _; now right | reflexivity].
  - split.
    + intros n [= <-]. split; [exact Hk|].
      exists j, p. rewrite Z.add_0_l. repeat split; assumption.
    + split; [discriminate|]. intros [Hp | Hnone]; [contradiction|]. exfalso.
      apply (Hnone p); [|assumption]. apply list_elem_of_lookup. eauto.
Qed.

Lemma indexById_entries_witness :
  (indexById [CLASSIC_PALETTE; EARTH_PALETTE; CLASSIC_PALETTE] !! "classic"%string
   = Some (ofZ 2)
   /\ exists (j : nat) (p : Palette.t),
       ofZ 2 = ofZ (Z.of_nat j)
       /\ [CLASSIC_PALETTE; EARTH_PALETTE; CLASSIC_PALETTE] !! j = Some p
       /\ Palette.id p = "classic"%string)
  /\ indexById [CLASSIC_PALETTE; protoPalette] !! "__proto__"%string = None.
Proof.
  assert (indexById [CLASSIC_PALETTE; EARTH_PALETTE; CLASSIC_PALETTE] !! "classic"%string
          = Some (ofZ 2)) as H by (vm_compute; reflexivity).
  split.
  - split; [exact H|].
    destruct (proj2 (proj1 (indexById_entries _ _) _ H)) as (j & p & Hn & Hj & Hid & _).
    exists j, p. repeat split; assumption.
  - apply (proj2 (indexById_entries [CLASSIC_PALETTE; protoPalette] "__proto__")).
    now left.
Defined.

(** ** Colour indices: further properties *)

Lemma isValidColorIndex_int (idx : number) (z : Z) (p : Palette.t) :
  isInt idx z ->
  (isValidColorIndex idx p = true <-> 0 <= z < Z.of_nat (length (Palette.colors p))).
Proof.
  intros Hz. unfold isValidColorIndex.
  rewrite !andb_true_iff, (greaterEq_ofZ _ z), (lessThan_ofZ _ z) by assumption.
  split; [tauto|]. intros H. repeat split; try lia.
  apply Number_isInteger_iff. now exists z.
Qed.

Lemma isValidColorIndex_not_int (idx : number) (p : Palette.t) :
  ~ (exists z, isInt idx z) -> isValidColorIndex idx p = false.
Proof.
  intros H. unfold isValidColorIndex.
  destruct (Number_isInteger idx) eqn:Hint; [|reflexivity].
  exfalso. apply H. now apply Number_isInteger_iff.
Qed.

(** X11. [isValidColorIndex idx p] is true exactly when [p.colors[idx]] is
    an entry of the palette, and false exactly when that read gives
    [undefined]: a validated index never reads outside the array. *)
Theorem isValidColorIndex_guards_read (idx : number) (p : Palette.t) :
  (isValidColorIndex idx p = true <-> is_Some (arrayGet (Palette.colors p) idx))
  /\ (isValidColorIndex idx p = false <-> arrayGet (Palette.colors p) idx = None).
Proof.
  assert (isValidColorIndex idx p = true <-> is_Some (arrayGet (Palette.colors p) idx)) as H.
  { destruct (Number_isInteger idx) eqn:Hint.
    - apply Number_isInteger_iff in Hint as [z Hz].
      rewrite (isValidColorIndex_int idx z p Hz).
      destruct (Z.le_gt_cases 0 z) as [Hpos | Hneg].
      + rewrite (arrayGet_int _ idx z Hz Hpos), lookup_lt_is_Some. lia.
      + rewrite arrayGet_outside.
        * split; [lia | intros [c Hc]; discriminate].
        * intros (z' & Hz' & Hr). rewrite (isInt_unique _ _ _ Hz Hz') in Hneg. lia.
    - assert (~ (exists z, isInt idx z)) as Hno.
      { intros Hex. apply Number_isInteger_iff in Hex. congruence. }
      rewrite (isValidColorIndex_not_int idx p Hno), arrayGet_outside.
      + split; [discriminate | intros [c Hc]; discriminate].
      + intros (z & Hz & _). apply Hno. now exists z. }
  split; [exact H|].
  rewrite <- not_true_iff_false, H, <- eq_None_not_Some. reflexivity.
Qed.

(** X12. The result of [findColorIndex] passes [isValidColorIndex] exactly
    when a colour was found, and then the entry read at the result is a
    colour with the normal form of the one looked up; the sentinel [-1]
    never passes. *)
Theorem findColorIndex_result_valid (color : string) (p : Palette.t) :
  let r := findColorIndex color p in
  isValidColorIndex (ofZ r) p = (0 <=? r)
  /\ (0 <= r ->
      exists c : string,
        arrayGet (Palette.colors p) (ofZ r) = Some c /\ norm c = norm color)
  /\ (r = -1 <-> isValidColorIndex (ofZ r) p = false).
Proof.
  cbn zeta.
  destruct (findColorIndex_cases color p) as [[Hr _] | (i & c & Hr & Hi & Hc & _)];
    rewrite Hr.
  - split; [reflexivity|]. split; [lia|]. split; reflexivity.
  - assert (isValidColorIndex (ofZ (Z.of_nat i)) p = true) as Hv.
    { apply (isValidColorIndex_int _ (Z.of_nat i)); [apply isInt_ofZ|].
      apply lookup_lt_Some in Hi. lia. }
    rewrite Hv. split; [symmetry; apply Z.leb_le; lia|].
    split.
    + intros _. exists c. split; [|assumption].
      rewrite (arrayGet_int _ _ (Z.of_nat i) (isInt_ofZ _)) by lia.
      now rewrite Nat2Z.id.
    + split; [lia | discriminate].
Qed.

Lemma findColorIndex_result_valid_witness :
  (0 <= findColorIndex "#00aa00" CLASSIC_PALETTE
   /\ exists c : string,
       arrayGet (Palette.colors CLASSIC_PALETTE)
                (ofZ (findColorIndex "#00aa00" CLASSIC_PALETTE)) = Some c
       /\ norm c = norm "#00aa00")
  /\ isValidColorIndex (ofZ (findColorIndex "#123456" CLASSIC_PALETTE)) CLASSIC_PALETTE
     = false.
Proof.
  assert (0 <= findColorIndex "#00aa00" CLASSIC_PALETTE) as H
    by (vm_compute; discriminate).
  split.
  - split; [exact H|].
    exact (proj1 (proj2 (findColorIndex_result_valid "#00aa00" CLASSIC_PALETTE)) H).
  - apply (proj2 (proj2 (findColorIndex_result_valid "#123456" CLASSIC_PALETTE))).
    reflexivity.
Defined.

(** X13. The baseline index computed for a default palette is a valid index
    of that palette as soon as the palette has a colour, whether white is in
    it or not; for a palette without colours it is 0, which is not valid. *)
Theorem baselineColorIndex_valid (dp : Palette.t) :
  (Palette.colors dp <> [] ->
   isValidColorIndex (ofZ (baselineColorIndex dp)) dp = true)
  /\ (Palette.colors dp = [] ->
      baselineColorIndex dp = 0
      /\ isValidColorIndex (ofZ (baselineColorIndex dp)) dp = false).
Proof.
  unfold baselineColorIndex. cbn zeta.
  destruct (findColorIndex_cases "#FFFFFF" dp) as [[Hr _] | (i & c & Hr & Hi & _)];
    rewrite Hr.
  - simpl. split.
    + intros Hne. apply (isValidColorIndex_int _ 0); [apply isInt_ofZ|].
      destruct (Palette.colors dp); [congruence | simpl; lia].
    + intros Hempty. split; [reflexivity|].
      apply not_true_iff_false. rewrite (isValidColorIndex_int _ 0 dp (isInt_ofZ 0)).
      rewrite Hempty. simpl. lia.
  - destruct (Z.geb_spec (Z.of_nat i) 0); [|lia]. split.
    + intros _. apply (isValidColorIndex_int _ (Z.of_nat i)); [apply isInt_ofZ|].
      apply lookup_lt_Some in Hi. lia.
    + intros Hempty. rewrite Hempty in Hi. discriminate.
Qed.

Lemma baselineColorIndex_valid_witness :
  (Palette.colors EARTH_PALETTE <> []
   /\ isValidColorIndex (ofZ (baselineColorIndex EARTH_PALETTE)) EARTH_PALETTE = true)
  /\ baselineColorIndex {| Palette.id := "none"; Palette.name := "None";
                           Palette.version := 1; Palette.colors := [] |} = 0.
Proof.
  assert (Palette.colors EARTH_PALETTE <> []) as Hne by discriminate.
  split.
  - split; [exact Hne | exact (proj1 (baselineColorIndex_valid EARTH_PALETTE) Hne)].
  - exact (proj1 (proj2 (baselineColorIndex_valid
                           {| Palette.id := "none"; Palette.name := "None";
                              Palette.version := 1; Palette.colors := [] |}) eq_refl)).
Defined.

Lemma upperChar_idempotent (c : ascii) : upperChar (upperChar c) = upperChar c.
Proof. destruct c as [[] [] [] [] [] [] [] []]; reflexivity. Qed.

Lemma toUpperCase_idempotent (s : string) : toUpperCase (toUpperCase s) = toUpperCase s.
Proof. induction s as [|c s IH]; simpl; [reflexivity|]. now rewrite upperChar_idempotent, IH. Qed.

Lemma norm_idempotent (hex : string) : norm (norm hex) = norm hex.
Proof.
  unfold norm at 2. destruct (String.length hex =? 7)%nat eqn:Hlen.
  - apply Nat.eqb_eq in Hlen. unfold norm.
    rewrite length_append, toUpperCase_length, Hlen. simpl.
    now rewrite toUpperCase_app, toUpperCase_idempotent.
  - unfold norm. rewrite toUpperCase_length, Hlen. apply toUpperCase_idempotent.
Qed.

(** X14. Normalising a colour twice changes nothing more: looking up a
    colour already in normal form (upper case, alpha appended) gives the
    index of the colour as written, for every palette. *)
Theorem findColorIndex_of_normal_form (hex : string) (p : Palette.t) :
  norm (norm hex) = norm hex
  /\ findColorIndex (norm hex) p = findColorIndex hex p
  /\ (String.length hex = 7%nat -> String.length (norm hex) = 9%nat)
  /\ (String.length hex <> 7%nat -> String.length (norm hex) = String.length hex).
Proof.
  split; [apply norm_idempotent|]. split; [|split].
  - unfold findColorIndex. cbn zeta. now rewrite norm_idempotent.
  - intros H. unfold norm. rewrite H. simpl.
    rewrite length_append, toUpperCase_length, H. reflexivity.
  - intros H. unfold norm. apply Nat.eqb_neq in H. rewrite H.
    apply toUpperCase_length.
Qed.

Lemma findColorIndex_of_normal_form_witness :
  (String.length "#ff5500" = 7%nat /\ String.length (norm "#ff5500") = 9%nat)
  /\ norm "#ff5500" = "#FF5500FF"%string
  /\ findColorIndex (norm "#ff5500") CLASSIC_PALETTE
     = findColorIndex "#ff5500" CLASSIC_PALETTE.
Proof.
  destruct (findColorIndex_of_normal_form "#ff5500" CLASSIC_PALETTE)
    as (_ & Hsame & Hlen & _).
  split; [split; [reflexivity | exact (Hlen eq_refl)]|].
  split; [reflexivity | exact Hsame].
Defined.

(** X15. The shipped palettes have the same number of colours, so an index
    is valid for one of them exactly when it is valid for any other:
    switching palette never invalidates a colour index. *)
Theorem valid_index_in_every_palette (idx : number) (p p' : Palette.t) :
  p ∈ palettes PALETTE_SET -> p' ∈ palettes PALETTE_SET ->
  length (Palette.colors p) = length (Palette.colors p')
  /\ isValidColorIndex idx p = isValidColorIndex idx p'.
Proof.
  intros Hp Hp'.
  assert (forall q, q ∈ palettes PALETTE_SET -> length (Palette.colors q) = 16%nat) as Hlen.
  { intros q Hq. unfold PALETTE_SET in Hq. cbn [palettes] in Hq.
    each_member Hq ltac:(reflexivity). }
  split; [now rewrite (Hlen p), (Hlen p')|].
  unfold isValidColorIndex. now rewrite (Hlen p), (Hlen p').
Qed.

Lemma valid_index_in_every_palette_witness :
  (CLASSIC_PALETTE ∈ palettes PALETTE_SET /\ SHADES_PALETTE ∈ palettes PALETTE_SET)
  /\ isValidColorIndex (ofZ 15) CLASSIC_PALETTE = isValidColorIndex (ofZ 15) SHADES_PALETTE.
Proof.
  assert (CLASSIC_PALETTE ∈ palettes PALETTE_SET) as H1
    by (apply list_elem_of_lookup; exists 0%nat; reflexivity).
  assert (SHADES_PALETTE ∈ palettes PALETTE_SET) as H2
    by (apply list_elem_of_lookup; exists 2%nat; reflexivity).
  split; [split; assumption|].
  exact (proj2 (valid_index_in_every_palette (ofZ 15) _ _ H1 H2)).
Defined.

(** ** Growing the catalog: further properties *)

Lemma findIndexFrom_app_found {A : Type} (pred : A -> bool) (arr more : list A) (k : Z) :
  (exists a, a ∈ arr /\ pred a = true) ->
  findIndexFrom pred (arr ++ more) k = findIndexFrom pred arr k.
Proof.
  revert k. induction arr as [|a arr IH]; intros k [b [Hb Hp]]; [inversion Hb|].
  simpl. destruct (pred a) eqn:Ha; [reflexivity|].
  apply IH. apply elem_of_cons in Hb as [-> | Hb]; [congruence|]. now exists b.
Qed.

Lemma findIndexFrom_app_missing {A : Type} (pred : A -> bool) (arr more : list A) (k : Z) :
  (forall a, a ∈ arr -> pred a = false) ->
  findIndexFrom pred (arr ++ more) k
  = findIndexFrom pred more (k + Z.of_nat (length arr)).
Proof.
  revert k. induction arr as [|a arr IH]; intros k Hall; simpl.
  - f_equal. lia.
  - rewrite (Hall a) by now left.
    rewrite IH by (intros b Hb; apply Hall; now right). f_equal. lia.
Qed.

(** X16. Appending colours to a palette keeps every index already found:
    a colour found in the palette is found at the same index in the longer
    palette, and a colour the palette lacks is absent from the longer one
    or found among the appended colours, never at an old index. *)
Theorem findColorIndex_append_stable (color : string) (p p' : Palette.t) (more : list string) :
  Palette.colors p' = Palette.colors p ++ more ->
  (0 <= findColorIndex color p -> findColorIndex color p' = findColorIndex color p)
  /\ (findColorIndex color p = -1 ->
      findColorIndex color p' = -1
      \/ Z.of_nat (length (Palette.colors p)) <= findColorIndex color p'
         < Z.of_nat (length (Palette.colors p'))).
Proof.
  intros Happ. split.
  - intros Hfound.
    destruct (findColorIndex_cases color p) as [[Hr _] | (i & c & Hr & Hi & Hc & _)]; [lia|].
    unfold findColorIndex, findIndex in *. cbn zeta in *. rewrite Happ.
    apply findIndexFrom_app_found.
    exists c. split; [apply list_elem_of_lookup; eauto | now apply String.eqb_eq].
  - intros Hmissing.
    destruct (findColorIndex_cases color p) as [[_ Hall] | (i & c & Hr & _)]; [|lia].
    unfold findColorIndex, findIndex. cbn zeta. rewrite Happ.
    rewrite findIndexFrom_app_missing
      by (intros a Ha; apply String.eqb_neq; now apply Hall).
    rewrite length_app.
    destruct (findIndexFrom_range (fun c => String.eqb (norm c) (norm color)) more
                (0 + Z.of_nat (length (Palette.colors p)))) as [H | H];
      [now left | right; lia].
Qed.

Lemma findColorIndex_append_stable_witness :
  (Palette.colors {| Palette.id := "classic"; Palette.name := "Classic";
                     Palette.version := 4;
                     Palette.colors := Palette.colors CLASSIC_PALETTE ++ ["#808080FF"%string] |}
   = Palette.colors CLASSIC_PALETTE ++ ["#808080FF"%string]
   /\ 0 <= findColorIndex "#000000" CLASSIC_PALETTE)
  /\ findColorIndex "#000000"
       {| Palette.id := "classic"; Palette.name := "Classic"; Palette.version := 4;
          Palette.colors := Palette.colors CLASSIC_PALETTE ++ ["#808080FF"%string] |}
     = findColorIndex "#000000" CLASSIC_PALETTE.
Proof.
  assert (0 <= findColorIndex "#000000" CLASSIC_PALETTE) as H by (vm_compute; discriminate).
  split; [split; [reflexivity | exact H]|].
  exact (proj1 (findColorIndex_append_stable "#000000" CLASSIC_PALETTE
                  {| Palette.id := "classic"; Palette.name := "Classic";
                     Palette.version := 4;
                     Palette.colors :=
                       Palette.colors CLASSIC_PALETTE ++ ["#808080FF"%string] |}
                  ["#808080FF"%string] eq_refl) H).
Defined.

Lemma forEachFrom_app {A S : Type} (f : S -> A -> Z -> S) (arr more : list A) (i : Z) (s : S) :
  forEachFrom f (arr ++ more) i s
  = forEachFrom f more (i + Z.of_nat (length arr)) (forEachFrom f arr i s).
Proof.
  revert i s. induction arr as [|a arr IH]; intros i s; simpl.
  - f_equal. lia.
  - rewrite IH. f_equal. lia.
Qed.

(** X17. Appending palettes to a catalog keeps the ordinals handed out
    before: the index built from the longer list maps every id that no
    appended palette carries as the index of the shorter list does, and,
    ids being distinct, an appended palette gets the position after the old
    ones at which it stands, unless it is called [__proto__], the one id
    that is never recorded. *)
Theorem indexById_append_stable (pals more : list Palette.t) (k : string) :
  ((forall q, q ∈ more -> Palette.id q <> k) ->
   indexById (pals ++ more) !! k = indexById pals !! k)
  /\ (forall (j : nat) (q : Palette.t),
         NoDup (Palette.id <$> pals ++ more) -> more !! j = Some q ->
         Palette.id q <> "__proto__"%string ->
         indexById (pals ++ more) !! Palette.id q
         = Some (ofZ (Z.of_nat (length pals) + Z.of_nat j)))
  /\ indexById (pals ++ more) !! "__proto__"%string = None.
Proof.
  split; [|split].
  - intros Hnew. unfold indexById. rewrite forEachFrom_app.
    now apply forEach_recordIndex_other.
  - intros j q Hnd Hj Hproto. unfold indexById.
    rewrite (forEach_recordIndex_lookup _ (length pals + j) q 0 ∅ Hproto Hnd).
    + do 2 f_equal. lia.
    + rewrite lookup_app_r by lia. now replace (length pals + j - length pals)%nat with j by lia.
  - unfold indexById. now rewrite forEach_recordIndex_proto, lookup_empty.
Qed.

Lemma indexById_append_stable_witness :
  ((forall q, q ∈ [SHADES_PALETTE] -> Palette.id q <> "earth"%string)
   /\ indexById ([CLASSIC_PALETTE; EARTH_PALETTE] ++ [SHADES_PALETTE]) !! "earth"%string
      = indexById [CLASSIC_PALETTE; EARTH_PALETTE] !! "earth"%string)
  /\ (Palette.id SHADES_PALETTE <> "__proto__"%string
      /\ indexById ([CLASSIC_PALETTE; EARTH_PALETTE] ++ [SHADES_PALETTE]) !! "shades"%string
         = Some (ofZ 2))
  /\ indexById ([CLASSIC_PALETTE] ++ [protoPalette]) !! "__proto__"%string = None.
Proof.
  assert (forall q, q ∈ [SHADES_PALETTE] -> Palette.id q <> "earth"%string) as H.
  { intros q Hq. each_member Hq ltac:(discriminate). }
  assert (Palette.id SHADES_PALETTE <> "__proto__"%string) as Hproto by discriminate.
  split; [|split].
  - split; [exact H|].
    exact (proj1 (indexById_append_stable [CLASSIC_PALETTE; EARTH_PALETTE]
                    [SHADES_PALETTE] "earth"%string) H).
  - split; [exact Hproto|].
    refine (proj1 (proj2 (indexById_append_stable [CLASSIC_PALETTE; EARTH_PALETTE]
                            [SHADES_PALETTE] "earth"%string))
              0%nat SHADES_PALETTE _ eq_refl Hproto).
    decide_by_eval.
  - exact (proj2 (proj2 (indexById_append_stable [CLASSIC_PALETTE] [protoPalette]
                           "earth"%string))).
Defined.

(** ** Floor against truncation *)

(** X18. Where the coordinate functions differ from truncating arithmetic:
    for a pixel coordinate that is not negative, or a multiple of 64, the
    tile is the truncated quotient and the offset the plain remainder; for
    every other negative coordinate the tile is one less than the truncated
    quotient and the offset is the (negative) remainder plus 64. *)
Theorem floor_vs_truncation (px py : Z) :
  let t := toTileCoord px py in
  let o := toTileOffset px py in
  (0 <= Z.rem px 64 -> tx t = px ÷ 64 /\ ox o = Z.rem px 64)
  /\ (Z.rem px 64 < 0 -> tx t = px ÷ 64 - 1 /\ ox o = Z.rem px 64 + 64)
  /\ (0 <= Z.rem py 64 -> ty t = py ÷ 64 /\ oy o = Z.rem py 64)
  /\ (Z.rem py 64 < 0 -> ty t = py ÷ 64 - 1 /\ oy o = Z.rem py 64 + 64).
Proof.
  cbn zeta. unfold toTileCoord, toTileOffset. cbn [tx ty ox oy].
  rewrite !offset_axis_mod. unfold TILE_SIZE.
  assert (forall v, (0 <= Z.rem v 64 -> v / 64 = v ÷ 64 /\ v mod 64 = Z.rem v 64)
                    /\ (Z.rem v 64 < 0 ->
                        v / 64 = v ÷ 64 - 1 /\ v mod 64 = Z.rem v 64 + 64)) as Haxis.
  { intros v.
    pose proof (Z.quot_rem' v 64) as Hq.
    pose proof (Z.rem_bound_abs v 64 ltac:(lia)) as Hb.
    split; intros Hr.
    - assert (v / 64 = v ÷ 64) as Hd
          by (symmetry; apply (Z.div_unique v 64 _ (Z.rem v 64)); lia).
      split; [exact Hd|].
      symmetry. apply (Z.mod_unique v 64 (v ÷ 64)); lia.
    - assert (v / 64 = v ÷ 64 - 1) as Hd
          by (symmetry; apply (Z.div_unique v 64 _ (Z.rem v 64 + 64)); lia).
      split; [exact Hd|].
      symmetry. apply (Z.mod_unique v 64 (v ÷ 64 - 1)); lia. }
  destruct (Haxis px) as [Hx1 Hx2], (Haxis py) as [Hy1 Hy2].
  split; [exact Hx1 | split; [exact Hx2 | split; [exact Hy1 | exact Hy2]]].
Qed.

Lemma floor_vs_truncation_witness :
  (Z.rem (-65) 64 < 0
   /\ tx (toTileCoord (-65) 130) = (-65) ÷ 64 - 1
   /\ ox (toTileOffset (-65) 130) = Z.rem (-65) 64 + 64)
  /\ (0 <= Z.rem 130 64
      /\ ty (toTileCoord (-65) 130) = 130 ÷ 64
      /\ oy (toTileOffset (-65) 130) = Z.rem 130 64).
Proof.
  destruct (floor_vs_truncation (-65) 130) as (_ & Hneg & Hpos & _).
  assert (Z.rem (-65) 64 < 0) as H1 by (vm_compute; reflexivity).
  assert (0 <= Z.rem 130 64) as H2 by (vm_compute; discriminate).
  split; [split; [exact H1 | exact (Hneg H1)] | split; [exact H2 | exact (Hpos H2)]].
Defined.

(** ** Tile keys of pixels *)

Lemma tileKey_eq_iff (a b a' b' : Z) :
  tileKey a b = tileKey a' b' <-> a = a' /\ b = b'.
Proof.
  split; [|intros [-> ->]; reflexivity].
  unfold tileKey. intros Heq.
  apply split_at_colon in Heq as [Ha Hb]; try apply colonFree_numberToString.
  split; now apply numberToString_inj.
Qed.

(** X19. Two pixels get the same tile key (the key of the tile
    [toTileCoord] puts them in) exactly when the second lies in the 64 by 64
    square of the first one's tile: a cache keyed by [tileKey] never mixes
    pixels of different tiles and never splits a tile. *)
Theorem pixels_share_key_iff_same_tile (px py qx qy : Z) :
  let s := toTileCoord px py in
  let t := toTileCoord qx qy in
  tileKey (tx s) (ty s) = tileKey (tx t) (ty t)
  <-> (x (toPixelCoord (tx s) (ty s)) <= qx < x (toPixelCoord (tx s) (ty s)) + 64
       /\ y (toPixelCoord (tx s) (ty s)) <= qy < y (toPixelCoord (tx s) (ty s)) + 64).
Proof.
  cbn zeta. rewrite tileKey_eq_iff.
  unfold toTileCoord, toPixelCoord. cbn [tx ty x y].
  change 64 with TILE_SIZE. rewrite <- !tile_axis_bounds.
  split; intros [H1 H2]; split; congruence.
Qed.
